(** * bairry: artist resolution and lyrics lookup

    A shallow embedding of [src/musicbrainz_integration.py] and
    [src/genius_integration.py], and the properties their design document
    states about them.

    Conventions of the embedding.
    - A Python [str] is a list of code points.  The model covers the code
      points U+0000..U+00FF (the type [ascii] read as Latin-1): on those,
      [str.lower] maps one character to one character, and [str.strip]
      removes the characters [str.isspace] accepts.
    - Python floats that hold scores are exact rationals ([Q]): the
      literals 0.9, 0.7, 0.8 and 0.5 are 9/10, 7/10, 8/10 and 5/10, and
      [distance / max_len] is the quotient of the two integers.
    - Code that raises is a computation in an error monad; code that touches
      the cache directory or the network threads an explicit world. *)

From Stdlib Require Import ZArith QArith Ascii String List Lia Bool Arith.
From stdpp Require Import base list gmap sorting.
Import ListNotations.

Local Open Scope list_scope.
Local Open Scope nat_scope.

(** * Part I: the code *)

(** ** Python strings *)

Module PyStr.

Abbreviation str := (list ascii).

(** A literal: [py "abc"] is the Python string ["abc"]. *)
Definition py (s : string) : str := list_ascii_of_string s.

Definition ord (c : ascii) : N := N_of_ascii c.

(** [str.lower] on one Latin-1 character: A-Z, and the accented capitals
    U+00C0..U+00DE except the multiplication sign U+00D7, move up by 32. *)
Definition lower_char (c : ascii) : ascii :=
  let n := ord c in
  if ((65 <=? n) && (n <=? 90))%N
     || ((192 <=? n) && (n <=? 222) && negb (n =? 215))%N
  then ascii_of_N (n + 32)
  else c.

Definition lower (s : str) : str := map lower_char s.

(** [str.isspace] on one Latin-1 character. *)
Definition isspace (c : ascii) : bool :=
  let n := ord c in
  (((9 <=? n) && (n <=? 13)) || ((28 <=? n) && (n <=? 32))
   || (n =? 133) || (n =? 160))%N.

Fixpoint lstrip (s : str) : str :=
  match s with
  | c :: s' => if isspace c then lstrip s' else s
  | [] => []
  end.

Definition rstrip (s : str) : str := rev (lstrip (rev s)).

(** [s.strip()] *)
Definition strip (s : str) : str := rstrip (lstrip s).

(** [s.startswith(p)] *)
Fixpoint startswith (s p : str) {struct p} : bool :=
  match p, s with
  | [], _ => true
  | _ :: _, [] => false
  | c :: p', d :: s' => Ascii.eqb c d && startswith s' p'
  end.

(** [sub in s] *)
Fixpoint str_in (sub s : str) : bool :=
  startswith s sub ||
  match s with
  | [] => false
  | _ :: s' => str_in sub s'
  end.

(** [s.find(sub)]: the lowest index where [sub] starts, or -1. *)
Fixpoint find_from (i : Z) (s sub : str) : Z :=
  if startswith s sub then i
  else match s with
       | [] => (-1)%Z
       | _ :: s' => find_from (i + 1)%Z s' sub
       end.

Definition find (s sub : str) : Z := find_from 0%Z s sub.

(** [s[:i]], with Python's reading of a negative or too large bound. *)
Definition slice_to (s : str) (i : Z) : str :=
  if (i <? 0)%Z
  then take (Z.to_nat (Z.of_nat (length s) + i)) s
  else take (Z.to_nat i) s.

(** [s.split(sep)] for a separator of one character, which is the only form
    the sources use. *)
Fixpoint split (sep : ascii) (s : str) : list str :=
  match s with
  | [] => [[]]
  | c :: s' =>
      if Ascii.eqb c sep then [] :: split sep s'
      else match split sep s' with
           | p :: ps => (c :: p) :: ps
           | [] => [[c]]
           end
  end.

(** [sep.join(parts)] *)
Fixpoint join (sep : str) (parts : list str) : str :=
  match parts with
  | [] => []
  | [p] => p
  | p :: ps => p ++ sep ++ join sep ps
  end.

End PyStr.

Import PyStr.

(** ** Python values, exceptions and effects *)

Module Py.

(** The Python values JSON carries; the numbers are the integers. *)
#[warnings="-register-all"]
Inductive value :=
  | VNone
  | VBool (b : bool)
  | VInt (n : Z)
  | VStr (s : str)
  | VList (items : list value)
  | VDict (items : list (str * value)).

(** [bool(v)] *)
Definition truthy (v : value) : bool :=
  match v with
  | VNone => false
  | VBool b => b
  | VInt n => negb (n =? 0)%Z
  | VStr s => negb (bool_decide (s = []))
  | VList [] => false
  | VList (_ :: _) => true
  | VDict [] => false
  | VDict (_ :: _) => true
  end.

Fixpoint dict_get (d : list (str * value)) (k : str) : option value :=
  match d with
  | [] => None
  | (k', v) :: d' => if bool_decide (k' = k) then Some v else dict_get d' k
  end.

(** The exception classes the two modules raise or catch. *)
Inductive exn :=
  | RateLimitError
  | LyricsNotFoundError
  | APIError
  | RequestException   (** [requests.exceptions.RequestException] and its
                           subclasses: [ConnectionError], [Timeout],
                           [HTTPError], [RetryError] *)
  | ResponseError (message : str)
                       (** [musicbrainzngs.ResponseError]; [message] is
                           [str(e)] *)
  | Error.             (** any other subclass of [Exception]: [TypeError],
                           [KeyError], [AttributeError], [OSError], ... *)

Global Instance exn_eq_dec : EqDecision exn.
Proof. solve_decision. Defined.

Inductive result (A : Type) :=
  | Ok (a : A)
  | Raise (e : exn).
Arguments Ok {A} a.
Arguments Raise {A} e.

(** A computation over a world [W]: it returns or raises, and the world it
    leaves is kept either way. *)
Definition io (W A : Type) : Type := W -> result A * W.

Global Instance io_ret {W} : MRet (io W) := fun A a w => (Ok a, w).

Global Instance io_bind {W} : MBind (io W) := fun A B f m w =>
  match m w with
  | (Ok a, w') => f a w'
  | (Raise e, w') => (Raise e, w')
  end.

Definition raise {W A} (e : exn) : io W A := fun w => (Raise e, w).

(** [try: body except ...: handler] *)
Definition try_except {W A} (body : io W A) (handler : exn -> io W A) : io W A :=
  fun w =>
    match body w with
    | (Ok a, w') => (Ok a, w')
    | (Raise e, w') => handler e w'
    end.

(** A pure step that may raise. *)
Definition lift {W A} (r : result A) : io W A := fun w => (r, w).

(** [v.get(k, default)]; [AttributeError] when [v] is no dict. *)
Definition value_get (v : value) (k : str) (default_ : value) : result value :=
  match v with
  | VDict d => Ok (default default_ (dict_get d k))
  | _ => Raise Error
  end.

(** [v[k]] on a dict; [KeyError] or [TypeError] otherwise. *)
Definition subscript (v : value) (k : str) : result value :=
  match v with
  | VDict d => match dict_get d k with Some x => Ok x | None => Raise Error end
  | _ => Raise Error
  end.

(** What [for x in v: return ...] sees first: the first item of a list, the
    first key of a dict, the first character of a string; [None] when there
    is nothing to iterate over; [TypeError] when [v] is not iterable. *)
Definition first_item (v : value) : result (option value) :=
  match v with
  | VList [] => Ok None
  | VList (x :: _) => Ok (Some x)
  | VDict [] => Ok None
  | VDict ((k, _) :: _) => Ok (Some (VStr k))
  | VStr [] => Ok None
  | VStr (c :: _) => Ok (Some (VStr [c]))
  | _ => Raise Error
  end.

End Py.

Import Py.

(** ** The two normalizers *)

Module Normalizer.

(** [MusicBrainzIntegration.MULTI_ARTIST_DELIMITERS] *)
Definition MULTI_ARTIST_DELIMITERS : list str :=
  map py [" featuring "; " feat. "; " ft. ";
          " x "; " vs "; " vs. ";
          ", "; " and "; " & ";
          " ("; ")"]%string.

(** One turn of the loop of [parse_artist_string]. *)
Definition cut_at (result delimiter : str) : str :=
  if str_in (lower delimiter) (lower result)
  then let idx := find (lower result) (lower delimiter) in
       slice_to result idx
  else result.

(** [MusicBrainzIntegration.parse_artist_string] *)
Definition parse_artist_string (artist_string : str) : str :=
  let result := strip artist_string in
  let result := fold_left cut_at MULTI_ARTIST_DELIMITERS result in
  let result :=
    if str_in (py "(") result then hd [] (split "("%char result) else result in
  strip result.

(** The delimiter list local to [GeniusIntegration._extract_primary_artist]. *)
Definition delimiters : list str :=
  map py [" featuring "; " feat. "; " ft. "; " x "; " vs "; " vs. ";
          " & "; " (feat"; ", "; ", feat"]%string.

(** The loop of [_extract_primary_artist]: it leaves at the first delimiter
    that occurs ([break]). *)
Fixpoint extract_loop (ds : list str) (artist : str) : str :=
  match ds with
  | [] => artist
  | delimiter :: ds' =>
      if str_in (lower delimiter) (lower artist)
      then let idx := find (lower artist) (lower delimiter) in
           strip (slice_to artist idx)
      else extract_loop ds' artist
  end.

(** [GeniusIntegration._extract_primary_artist] *)
Definition _extract_primary_artist (artist_string : str) : str :=
  extract_loop delimiters (strip artist_string).

End Normalizer.

Import Normalizer.

(** ** Edit distance and the similarity score *)

Module Scorer.

(** The inner [for j, c2 in enumerate(s2)] of [_levenshtein_distance]: [j] is
    the index [enumerate] has reached and [s2] what is left to visit.  A list
    index out of range raises [IndexError], here [None]. *)
Fixpoint inner_loop (c1 : ascii) (previous_row : list nat) (j : nat) (s2 : str)
    (current_row : list nat) : option (list nat) :=
  match s2 with
  | [] => Some current_row
  | c2 :: s2' =>
      a ← previous_row !! (j + 1);
      b ← current_row !! j;
      c ← previous_row !! j;
      let insertions := a + 1 in
      let deletions := b + 1 in
      let substitutions := c + (if Ascii.eqb c1 c2 then 0 else 1) in
      inner_loop c1 previous_row (j + 1) s2'
        (current_row ++ [Nat.min (Nat.min insertions deletions) substitutions])
  end.

(** The outer [for i, c1 in enumerate(s1)]. *)
Fixpoint outer_loop (s2 : str) (i : nat) (s1 : str) (previous_row : list nat)
    : option (list nat) :=
  match s1 with
  | [] => Some previous_row
  | c1 :: s1' =>
      current_row ← inner_loop c1 previous_row 0 s2 [i + 1];
      outer_loop s2 (i + 1) s1' current_row
  end.

(** [MusicBrainzIntegration._levenshtein_distance] *)
Definition _levenshtein_distance (s1 s2 : str) : option nat :=
  let '(s1, s2) := if length s1 <? length s2 then (s2, s1) else (s1, s2) in
  if length s2 =? 0 then Some (length s1)
  else
    previous_row ← outer_loop s2 0 s1 (seq 0 (length s2 + 1));
    last previous_row.

Definition str_eqb (a b : str) : bool := bool_decide (a = b).

(** Python's [distance / max_len] on two non-negative integers, as an exact
    rational. *)
Definition true_div (a b : nat) : Q := Z.of_nat a # Pos.of_nat b.

(** [MusicBrainzIntegration._calculate_match_score] *)
Definition _calculate_match_score (query candidate : str) : option Q :=
  let query_lower := lower query in
  let candidate_lower := lower candidate in
  if str_eqb query_lower candidate_lower then Some 1%Q
  else if startswith candidate_lower query_lower then Some (9 # 10)%Q
  else if str_in query_lower candidate_lower then Some (7 # 10)%Q
  else
    distance ← _levenshtein_distance query_lower candidate_lower;
    let max_len := Nat.max (length query_lower) (length candidate_lower) in
    if max_len =? 0 then Some 1%Q
    else
      let similarity := (1 - true_div distance max_len)%Q in
      if Qle_bool (8 # 10) similarity
      then Some (similarity * (5 # 10))%Q
      else Some 0%Q.

End Scorer.

Import Scorer.

(** ** Genre extraction *)

Module Genres.

(** Python compares strings code point by code point, a proper prefix
    first. *)
Fixpoint str_leb (a b : str) : bool :=
  match a, b with
  | [], _ => true
  | _ :: _, [] => false
  | x :: a', y :: b' =>
      if (ord x <? ord y)%N then true
      else if (ord x =? ord y)%N then str_leb a' b'
      else false
  end.

Definition str_le (a b : str) : Prop := str_leb a b = true.

Global Instance str_le_dec a b : Decision (str_le a b).
Proof. unfold str_le. apply _. Defined.

(** [sorted(list(set(l)))]: the set forgets order and repetition, the sort
    puts its elements in increasing order. *)
Definition sorted_set (l : list str) : list str :=
  merge_sort str_le (elements (list_to_set l : gset str)).

(** One entry of ["tag-list"]: a dict with ["name"] and optionally
    ["count"]. *)
Record tag := { tag_name : option str; tag_count : option nat }.

(** The artist dict of the metadata service, with the keys the code reads:
    ["name"], ["tag-list"], ["genre"]. *)
Record artist := {
  artist_name : option str;
  artist_tag_list : option (list tag);
  artist_genre : option str
}.

(** The body of [for tag_item in tags]. *)
Definition collect_tag (genres : list str) (tag_item : tag) : list str :=
  let name := strip (lower (default [] (tag_name tag_item))) in
  if negb (bool_decide (name = [])) && (2 <? length name)
  then genres ++ [name]
  else genres.

(** [MusicBrainzIntegration._extract_genres_from_tags] *)
Definition _extract_genres_from_tags (artist_data : artist) : list str :=
  let genres := [] in
  let tags := default [] (artist_tag_list artist_data) in
  let genres := fold_left collect_tag tags genres in
  let genres :=
    if bool_decide (genres = []) then
      let genre_field := default [] (artist_genre artist_data) in
      if negb (bool_decide (genre_field = []))
      then map (fun g => lower (strip g)) (split ";"%char genre_field)
      else genres
    else genres in
  sorted_set genres.

End Genres.

Import Genres.

(** ** The cache fingerprint *)

(** [hashlib.md5]: the MD5 digest of RFC 1321, on 32-bit words held in [Z]. *)
Module Md5.

Local Open Scope Z_scope.

Definition mask32 : Z := 0xFFFFFFFF.
Definition add32 (x y : Z) : Z := Z.land (x + y) mask32.
Definition not32 (x : Z) : Z := Z.lxor x mask32.
Definition rotl32 (x c : Z) : Z :=
  Z.land (Z.lor (Z.shiftl x c) (Z.shiftr x (32 - c))) mask32.

Definition S_table : list Z :=
  [7; 12; 17; 22; 7; 12; 17; 22; 7; 12; 17; 22; 7; 12; 17; 22;
   5; 9; 14; 20; 5; 9; 14; 20; 5; 9; 14; 20; 5; 9; 14; 20;
   4; 11; 16; 23; 4; 11; 16; 23; 4; 11; 16; 23; 4; 11; 16; 23;
   6; 10; 15; 21; 6; 10; 15; 21; 6; 10; 15; 21; 6; 10; 15; 21].

Definition K_table : list Z :=
  [0xd76aa478; 0xe8c7b756; 0x242070db; 0xc1bdceee;
   0xf57c0faf; 0x4787c62a; 0xa8304613; 0xfd469501;
   0x698098d8; 0x8b44f7af; 0xffff5bb1; 0x895cd7be;
   0x6b901122; 0xfd987193; 0xa679438e; 0x49b40821;
   0xf61e2562; 0xc040b340; 0x265e5a51; 0xe9b6c7aa;
   0xd62f105d; 0x02441453; 0xd8a1e681; 0xe7d3fbc8;
   0x21e1cde6; 0xc33707d6; 0xf4d50d87; 0x455a14ed;
   0xa9e3e905; 0xfcefa3f8; 0x676f02d9; 0x8d2a4c8a;
   0xfffa3942; 0x8771f681; 0x6d9d6122; 0xfde5380c;
   0xa4beea44; 0x4bdecfa9; 0xf6bb4b60; 0xbebfbc70;
   0x289b7ec6; 0xeaa127fa; 0xd4ef3085; 0x04881d05;
   0xd9d4d039; 0xe6db99e5; 0x1fa27cf8; 0xc4ac5665;
   0xf4292244; 0x432aff97; 0xab9423a7; 0xfc93a039;
   0x655b59c3; 0x8f0ccc92; 0xffeff47d; 0x85845dd1;
   0x6fa87e4f; 0xfe2ce6e0; 0xa3014314; 0x4e0811a1;
   0xf7537e82; 0xbd3af235; 0x2ad7d2bb; 0xeb86d391].

Definition state : Type := Z * Z * Z * Z.

(** Operation [i] of the 64 that digest one block [M] of sixteen words. *)
Definition step (M : list Z) (st : state) (i : nat) : state :=
  let '(A, B, C, D) := st in
  let iz := Z.of_nat i in
  let '(F, g) :=
    if (i <? 16)%nat then (Z.lor (Z.land B C) (Z.land (not32 B) D), iz)
    else if (i <? 32)%nat
    then (Z.lor (Z.land D B) (Z.land (not32 D) C), (5 * iz + 1) mod 16)
    else if (i <? 48)%nat then (Z.lxor (Z.lxor B C) D, (3 * iz + 5) mod 16)
    else (Z.lxor C (Z.lor B (not32 D)), (7 * iz) mod 16) in
  let F := add32 (add32 (add32 F A) (nth i K_table 0)) (nth (Z.to_nat g) M 0) in
  (D, add32 B (rotl32 F (nth i S_table 0)), B, C).

(** [n] little-endian words from a list of bytes. *)
Fixpoint words (n : nat) (bytes : list Z) : list Z :=
  match n, bytes with
  | S n', b0 :: b1 :: b2 :: b3 :: rest =>
      (b0 + 256 * b1 + 65536 * b2 + 16777216 * b3) :: words n' rest
  | _, _ => []
  end.

Definition compress (st : state) (block : list Z) : state :=
  let M := words 16 block in
  let '(A, B, C, D) := fold_left (step M) (seq 0 64) st in
  let '(a0, b0, c0, d0) := st in
  (add32 a0 A, add32 b0 B, add32 c0 C, add32 d0 D).

Definition le_bytes (n : nat) (x : Z) : list Z :=
  map (fun k => Z.land (Z.shiftr x (8 * Z.of_nat k)) 255) (seq 0 n).

(** Padding: a one bit, zeros up to 56 modulo 64 bytes, the bit length. *)
Definition pad (msg : list Z) : list Z :=
  let len := Z.of_nat (length msg) in
  let zeros := Z.to_nat ((55 - len) mod 64) in
  msg ++ [128] ++ repeat 0 zeros ++ le_bytes 8 ((8 * len) mod 2 ^ 64).

Fixpoint blocks (n : nat) (bytes : list Z) : list (list Z) :=
  match n with
  | O => []
  | S n' => take 64 bytes :: blocks n' (drop 64 bytes)
  end.

(** [hashlib.md5(msg).digest()], sixteen bytes. *)
Definition md5 (msg : list Z) : list Z :=
  let padded := pad msg in
  let '(a, b, c, d) :=
    fold_left compress (blocks (length padded / 64) padded)
      (0x67452301, 0xefcdab89, 0x98badcfe, 0x10325476) in
  le_bytes 4 a ++ le_bytes 4 b ++ le_bytes 4 c ++ le_bytes 4 d.

Definition hex_digit (n : Z) : ascii :=
  ascii_of_N (Z.to_N (if n <? 10 then 48 + n else 87 + n)).

Definition hex_byte (b : Z) : str := [hex_digit (b / 16); hex_digit (b mod 16)].

(** [hashlib.md5(msg).hexdigest()] *)
Definition hexdigest (msg : list Z) : str := flat_map hex_byte (md5 msg).

End Md5.

Module Fingerprint.

(** [s.encode()]: UTF-8 of the code points below U+0100. *)
Definition encode_char (c : ascii) : list Z :=
  let n := Z.of_N (ord c) in
  if (n <? 128)%Z then [n] else [192 + n / 64; 128 + n mod 64]%Z.

Definition encode (s : str) : list Z := flat_map encode_char s.

(** [f"{song_title}:{artist_name}".lower()] *)
Definition cache_str (song_title artist_name : str) : str :=
  lower (song_title ++ py ":" ++ artist_name).

(** [GeniusIntegration._get_cache_key] *)
Definition _get_cache_key (song_title artist_name : str) : str :=
  Md5.hexdigest (encode (cache_str song_title artist_name)).

End Fingerprint.

Import Fingerprint.

(** ** The lyrics resolver *)

Module Genius.

(** A file of the cache directory: [json.load] raises on it, or returns the
    value stored. *)
Inductive file :=
  | Corrupt
  | Stored (data : value).

Inductive level := DEBUG | INFO | WARNING | ERROR.

(** A request that left the process. *)
Inductive call :=
  | SearchCall (q : str)
  | FetchCall (url : value).

(** The world [get_lyrics] acts on: the cache directory by cache key, the
    logger's records, the requests made, oldest first. *)
Record world := {
  files : gmap str file;
  log : list (level * str);
  calls : list call
}.

(** What the search endpoint does with one attempt: it answers with a status
    and a body ([None] when the body is not JSON), or the connection fails. *)
Inductive attempt :=
  | Status (code : Z) (body : option value)
  | ConnectionFailure.

(** The lyrics page as the scraper sees it: the status, and the text of each
    container the two selectors find ([get_text] after the line breaks are
    put back). *)
Record page := {
  page_status : Z;
  lyrics_containers : list str;
  fallback_containers : list str
}.

Inductive write_fault :=
  | OpenFails      (** [open(..., 'w')] raises: the file is not touched *)
  | DumpFails.     (** the write raises once the file is open: it is left
                       truncated *)

(** The surroundings: what [self._session.get] does with a search query (it
    returns a response, here its status and its JSON body, or raises), the
    pages by URL ([None]: [requests.get] raises), and the cache files that
    cannot be written. *)
Record env := {
  session : str -> result (Z * option value);
  pages : value -> option page;
  write_faults : str -> option write_fault
}.

Definition MAX_RETRIES : nat := 3.
Definition status_forcelist : list Z := [429; 500; 502; 503; 504]%Z.

Definition logger (l : level) (message : str) : io world unit :=
  fun w => (Ok tt, {| files := files w; log := log w ++ [(l, message)];
                     calls := calls w |}).

Definition record_call (c : call) : io world unit :=
  fun w => (Ok tt, {| files := files w; log := log w; calls := calls w ++ [c] |}).

(** The [HTTPAdapter] that [_create_session] mounts, with
    [Retry(total=MAX_RETRIES, status_forcelist=[429, 500, 502, 503, 504],
    allowed_methods=["GET", "POST"])].  urllib3 sends again while retries are
    left when the status is in the force list or the connection fails.  When
    none is left, a failed connection raises [ConnectionError]; and a status
    of the force list raises [MaxRetryError], since [raise_on_status] is left
    at its default [True], which requests hands on as [RetryError].  Both are
    [RequestException]s.  [k] is the attempt number; the waits between
    attempts are not modelled. *)
Fixpoint send (retries_left : nat) (k : nat) (server : nat -> attempt)
    : result (Z * option value) :=
  match server k with
  | Status code body =>
      if bool_decide (code ∈ status_forcelist)
      then match retries_left with
           | O => Raise RequestException
           | S n => send n (k + 1) server
           end
      else Ok (code, body)
  | ConnectionFailure =>
      match retries_left with
      | O => Raise RequestException
      | S n => send n (k + 1) server
      end
  end.

(** [GeniusIntegration._create_session]: the session over a search endpoint,
    given by query and attempt number. *)
Definition _create_session (endpoint : str -> nat -> attempt)
    : str -> result (Z * option value) :=
  fun q => send MAX_RETRIES 0 (endpoint q).

(** [self._session.get(f"{BASE_URL}/search", params={"q": q, "per_page": 5})] *)
Definition session_get (E : env) (q : str) : io world (Z * option value) :=
  record_call (SearchCall q);;
  lift (session E q).

(** [response.raise_for_status()] *)
Definition raise_for_status (code : Z) : result unit :=
  if ((400 <=? code) && (code <? 600))%Z then Raise RequestException else Ok tt.

(** [os.path.exists(cache_file)] *)
Definition path_exists (cache_key : str) : io world bool :=
  fun w => (Ok (bool_decide (is_Some (files w !! cache_key))), w).

(** [with open(cache_file, 'r') as f: json.load(f)] *)
Definition json_load (cache_key : str) : io world value :=
  fun w =>
    match files w !! cache_key with
    | Some (Stored data) => (Ok data, w)
    | _ => (Raise Error, w)
    end.

(** [with open(cache_file, 'w') as f: json.dump(data, f, ...)] *)
Definition json_dump (E : env) (cache_key : str) (data : value) : io world unit :=
  fun w =>
    match write_faults E cache_key with
    | None =>
        (Ok tt, {| files := <[cache_key := Stored data]> (files w);
                   log := log w; calls := calls w |})
    | Some OpenFails => (Raise Error, w)
    | Some DumpFails =>
        (Raise Error, {| files := <[cache_key := Corrupt]> (files w);
                         log := log w; calls := calls w |})
    end.

(** [GeniusIntegration._read_cache] *)
Definition _read_cache (cache_key : str) : io world value :=
  found ← path_exists cache_key;
  if (found : bool)
  then try_except (json_load cache_key)
         (fun e => logger WARNING (py "Failed to read cache file");; mret VNone)
  else mret VNone.

(** [GeniusIntegration._write_cache] *)
Definition _write_cache (E : env) (cache_key : str) (data : value) : io world unit :=
  try_except (json_dump E cache_key data)
    (fun e => logger WARNING (py "Failed to write cache file")).

(** The [try] block of [search_song]. *)
Definition search_song_body (E : env) (song_title primary_artist : str)
    : io world value :=
  response ← session_get E (song_title ++ py " " ++ primary_artist);
  let '(status_code, body) := response in
  if (status_code =? 429)%Z then raise RateLimitError
  else
    lift (raise_for_status status_code);;
    data ← lift (match body with Some v => Ok v | None => Raise RequestException end);
    r ← lift (value_get data (py "response") (VDict []));
    hits ← lift (value_get r (py "hits") (VList []));
    hit ← lift (first_item hits);
    match hit with
    | Some hit =>
        song ← lift (value_get hit (py "result") (VDict []));
        url ← lift (value_get song (py "url") VNone);
        title ← lift (value_get song (py "title") VNone);
        primary ← lift (value_get song (py "primary_artist") (VDict []));
        artist ← lift (value_get primary (py "name") VNone);
        mret (VDict [(py "url", url); (py "title", title); (py "artist", artist)])
    | None => mret VNone
    end.

(** [GeniusIntegration.search_song] *)
Definition search_song (E : env) (song_title artist_name : str) : io world value :=
  let primary_artist := _extract_primary_artist artist_name in
  try_except (search_song_body E song_title primary_artist)
    (fun e =>
       match e with
       | RateLimitError => raise RateLimitError
       | RequestException =>
           logger ERROR (py "Error searching Genius");;
           raise LyricsNotFoundError
       | _ =>
           logger ERROR (py "Unexpected error searching Genius");;
           raise LyricsNotFoundError
       end).

(** The [try] block of [fetch_lyrics]. *)
Definition fetch_lyrics_body (E : env) (song_url : value) : io world value :=
  record_call (FetchCall song_url);;
  response ← lift (match pages E song_url with
                   | Some p => Ok p
                   | None => Raise RequestException
                   end);
  lift (raise_for_status (page_status response));;
  let containers :=
    match lyrics_containers response with
    | [] => fallback_containers response
    | found => found
    end in
  match containers with
  | [] => raise LyricsNotFoundError
  | _ =>
      let lyrics_parts := filter (fun text => text <> []) containers in
      match lyrics_parts with
      | [] => raise LyricsNotFoundError
      | _ =>
          let lyrics := join (py (String "010" "")) lyrics_parts in
          let lines := split "010"%char lyrics in
          mret (VStr (join (py (String "010" ""))
                        (map strip (filter (fun line => strip line <> []) lines))))
      end
  end.

(** [GeniusIntegration.fetch_lyrics]: both handlers raise
    [LyricsNotFoundError]. *)
Definition fetch_lyrics (E : env) (song_url : value) : io world value :=
  try_except (fetch_lyrics_body E song_url)
    (fun e =>
       match e with
       | RequestException =>
           logger ERROR (py "Error fetching lyrics");; raise LyricsNotFoundError
       | _ =>
           logger ERROR (py "Error parsing lyrics");; raise LyricsNotFoundError
       end).

Definition not_found_marker : value := VDict [(py "not_found", VBool true)].

(** The [try] block of [get_lyrics]. *)
Definition get_lyrics_body (E : env) (cache_key song_title artist_name : str)
    : io world value :=
  song_data ← search_song E song_title artist_name;
  if negb (truthy song_data)
  then
    logger INFO (py "Song not found on Genius");;
    _write_cache E cache_key not_found_marker;;
    mret VNone
  else
    url ← lift (subscript song_data (py "url"));
    lyrics ← fetch_lyrics E url;
    url ← lift (subscript song_data (py "url"));
    title ← lift (subscript song_data (py "title"));
    artist ← lift (subscript song_data (py "artist"));
    _write_cache E cache_key
      (VDict [(py "lyrics", lyrics); (py "url", url); (py "title", title);
              (py "artist", artist)]);;
    logger INFO (py "Successfully fetched lyrics");;
    mret lyrics.

(** The [try] statement of [get_lyrics], which a cache miss leads to: the
    block above under its two [except] clauses. *)
Definition on_miss (E : env) (cache_key song_title artist_name : str)
    : io world value :=
  try_except (get_lyrics_body E cache_key song_title artist_name)
    (fun e =>
       match e with
       | RateLimitError => raise RateLimitError
       | LyricsNotFoundError =>
           logger WARNING (py "Failed to get lyrics");;
           _write_cache E cache_key not_found_marker;;
           mret VNone
       | _ => raise e
       end).

(** [GeniusIntegration.get_lyrics] *)
Definition get_lyrics (E : env) (song_title artist_name : str) : io world value :=
  let cache_key := _get_cache_key song_title artist_name in
  cached ← _read_cache cache_key;
  match cached with
  | VNone => on_miss E cache_key song_title artist_name
  | _ =>
      not_found ← lift (value_get cached (py "not_found") VNone);
      if truthy not_found
      then logger DEBUG (py "Cache hit (not found)");; mret VNone
      else
        logger DEBUG (py "Cache hit");;
        lift (value_get cached (py "lyrics") VNone)
  end.

End Genius.

Import Genius.

(** ** The artist resolver *)

Module MusicBrainz.

Global Instance result_ret : MRet result := fun A a => Ok a.

Global Instance result_bind : MBind result := fun A B f r =>
  match r with
  | Ok a => f a
  | Raise e => Raise e
  end.

(** An entry of ["artist-list"]: a dict with ["id"] and ["name"]. *)
Record candidate := { candidate_id : option str; candidate_name : option str }.

(** The metadata service, as the two calls of the code see it:
    [mb.search_artists(name, limit=n)], reduced to the value under
    ["artist-list"] ([None] when the key is missing), and
    [mb.get_artist_by_id(id, includes=...)], reduced to the value under
    ["artist"].  Either may raise. *)
Record service := {
  search_artists : str -> nat -> result (option (list candidate));
  get_artist_by_id : str -> list str -> result (option artist)
}.

(** The dict [resolve_artist] returns. *)
Record resolved := {
  musicbrainz_id : str;
  canonical_name : str;
  genres : list str
}.

(** The variables the loop of [resolve_artist] leaves behind;
    [last_name] is [canonical_name], unbound before the first turn. *)
Record selection := {
  best_match : option candidate;
  best_score : Q;
  last_name : option str
}.

Definition initial_selection : selection :=
  {| best_match := None; best_score := 0%Q; last_name := None |}.

(** [a > b] and [a < b] on scores. *)
Definition Qgtb (a b : Q) : bool := negb (Qle_bool a b).
Definition Qltb (a b : Q) : bool := negb (Qle_bool b a).

(** One turn of [for artist in results["artist-list"]]. *)
Definition select_step (primary_artist : str) (st : selection) (artist : candidate)
    : result selection :=
  let name := default [] (candidate_name artist) in
  score ← match _calculate_match_score primary_artist name with
          | Some score => Ok score
          | None => Raise Error
          end;
  if Qgtb score (best_score st)
  then Ok {| best_match := Some artist; best_score := score; last_name := Some name |}
  else Ok {| best_match := best_match st; best_score := best_score st;
             last_name := Some name |}.

Fixpoint select_loop (primary_artist : str) (st : selection)
    (artist_list : list candidate) : result selection :=
  match artist_list with
  | [] => Ok st
  | artist :: rest =>
      st' ← select_step primary_artist st artist;
      select_loop primary_artist st' rest
  end.

(** The [try] block of [resolve_artist]. *)
Definition resolve_artist_body (svc : service) (artist_name : str)
    (confidence_threshold : Q) : result (option resolved) :=
  let primary_artist := parse_artist_string artist_name in
  results ← search_artists svc primary_artist 5;
  match results with
  | None | Some [] => Ok None
  | Some artist_list =>
      sel ← select_loop primary_artist initial_selection artist_list;
      if Qltb (best_score sel) confidence_threshold then Ok None
      else
        best ← match best_match sel with Some b => Ok b | None => Raise Error end;
        id ← match candidate_id best with Some i => Ok i | None => Raise Error end;
        artist_detail ← get_artist_by_id svc id [py "tags"];
        artist_data ← match artist_detail with Some a => Ok a | None => Raise Error end;
        let genres := _extract_genres_from_tags artist_data in
        fallback ← match last_name sel with Some n => Ok n | None => Raise Error end;
        Ok (Some {| musicbrainz_id := id;
                    canonical_name := default fallback (Genres.artist_name artist_data);
                    genres := genres |})
  end.

(** [MusicBrainzIntegration.resolve_artist]: the two [except] clauses. *)
Definition resolve_artist (svc : service) (artist_name : str)
    (confidence_threshold : Q) : result (option resolved) :=
  match resolve_artist_body svc artist_name confidence_threshold with
  | Ok r => Ok r
  | Raise (ResponseError message) =>
      if str_in (py "429") message || str_in (py "rate limit") (lower message)
      then Raise RateLimitError
      else Raise APIError
  | Raise _ => Raise APIError
  end.

End MusicBrainz.

Import MusicBrainz.

(** * Part II: what the design document says, and the vocabulary of the proofs *)

(** ** The normalizer as the design document words it *)

Module NormalizerSpec.

(** [ci_starts d s]: [s] begins with [d], letter case disregarded. *)
Fixpoint ci_starts (d s : str) {struct d} : bool :=
  match d, s with
  | [], _ => true
  | _ :: _, [] => false
  | c :: d', x :: s' => Ascii.eqb (lower_char c) (lower_char x) && ci_starts d' s'
  end.

(** The portion of [s] before the first case-insensitive occurrence of [d];
    [None] when [d] does not occur. *)
Fixpoint before_first (d s : str) {struct s} : option str :=
  if ci_starts d s then Some []
  else match s with
       | [] => None
       | c :: s' => option_map (cons c) (before_first d s')
       end.

(** "Truncate the string to the portion before that delimiter's first
    occurrence", and leave it alone when the delimiter is not found. *)
Definition truncate (s d : str) : str :=
  match before_first d s with
  | Some p => p
  | None => s
  end.

(** "If an open parenthesis remains anywhere, truncate to the portion before
    it." *)
Fixpoint before_paren (s : str) : str :=
  match s with
  | [] => []
  | c :: s' => if Ascii.eqb c "("%char then [] else c :: before_paren s'
  end.

(** Trim; scan the table in list order, truncating at every delimiter found,
    each against the result so far; cut at an open parenthesis; trim. *)
Definition primaryArtist (table : list str) (credit : str) : str :=
  strip (before_paren (fold_left truncate table (strip credit))).

(** The variant that stops at the first delimiter of the table that occurs,
    and has no parenthesis step. *)
Fixpoint first_found (table : list str) (s : str) : str :=
  match table with
  | [] => s
  | d :: table' =>
      match before_first d s with
      | Some p => strip p
      | None => first_found table' s
      end
  end.

Definition primaryArtist_first (table : list str) (credit : str) : str :=
  first_found table (strip credit).

(** [d] occurs in [s], letter case disregarded. *)
Definition ci_occurs (d s : str) : Prop :=
  exists l m r, s = l ++ m ++ r /\ lower m = lower d.

(** No white space at either end: neither the first nor the last character
    is one [str.isspace] accepts. *)
Definition no_edge_space (o : str) : Prop :=
  (forall c, head o = Some c -> isspace c = false)
  /\ (forall c, head (rev o) = Some c -> isspace c = false).

(** A string the normalizer has nothing left to do on, for a delimiter table:
    no delimiter occurs in it whatever the letter case, it holds no open
    parenthesis, and it neither starts nor ends with white space. *)
Definition normal_form (table : list str) (o : str) : Prop :=
  (forall d, In d table -> ~ ci_occurs d o)
  /\ str_in (py "(") o = false
  /\ strip o = o.

End NormalizerSpec.

Import NormalizerSpec.

(** ** The scorer as the design document words it *)

Module ScorerSpec.

(** One single-character insertion, deletion or substitution. *)
Inductive edit : str -> str -> Prop :=
  | edit_insert l c r : edit (l ++ r) (l ++ c :: r)
  | edit_delete l c r : edit (l ++ c :: r) (l ++ r)
  | edit_substitute l c d r : edit (l ++ c :: r) (l ++ d :: r).

(** [edits n s t]: [n] such steps transform [s] into [t]. *)
Inductive edits : nat -> str -> str -> Prop :=
  | edits_O s : edits 0 s s
  | edits_S n s t u : edit s t -> edits n t u -> edits (S n) s u.

(** [n] is the minimum number of single-character insertions, deletions and
    substitutions that transform [s] into [t]. *)
Definition levenshteinDistance (s t : str) (n : nat) : Prop :=
  edits n s t /\ forall m, edits m s t -> n <= m.

(** The textbook recurrence for that minimum. *)
Fixpoint lev (a b : str) {struct a} : nat :=
  match a with
  | [] => length b
  | x :: a' =>
      (fix lev_x (b : str) : nat :=
         match b with
         | [] => length a
         | y :: b' =>
             Nat.min (Nat.min (lev a' b + 1) (lev_x b' + 1))
                     (lev a' b' + (if Ascii.eqb x y then 0 else 1))
         end) b
  end.

(** [candidate] holds [query] somewhere, letter case disregarded. *)
Fixpoint ci_substring (query candidate : str) : bool :=
  ci_starts query candidate ||
  match candidate with
  | [] => false
  | _ :: candidate' => ci_substring query candidate'
  end.

(** [similarity = 1 - distance / max(len(query), len(candidate))], and 1 when
    both lengths are 0. *)
Definition similarity (query candidate : str) (distance : nat) : Q :=
  let max_len := Nat.max (length query) (length candidate) in
  if max_len =? 0 then 1%Q else (1 - true_div distance max_len)%Q.

(** The four rules, in order, first match wins. *)
Definition score (query candidate : str) : Q :=
  if str_eqb (lower query) (lower candidate) then 1%Q
  else if ci_starts query candidate then (9 # 10)%Q
  else if ci_substring query candidate then (7 # 10)%Q
  else
    let sim := similarity query candidate (lev (lower query) (lower candidate)) in
    if Qle_bool (8 # 10) sim then (sim * (5 # 10))%Q else 0%Q.

(** [near s t]: against any target, the recurrence from [s] is within one of
    the recurrence from [t]. *)
Definition near (s t : str) : Prop := forall u, lev s u <= lev t u + 1.

(** The first [k] cells of the row for the prefix [a] of [s1]: the distances
    from [a] to the prefixes of [s2]. *)
Definition row_upto (a s2 : str) (k : nat) : list nat :=
  (fun j => lev a (take j s2)) <$> seq 0 k.

End ScorerSpec.

Import ScorerSpec.

(** ** The genres as the design document words them *)

Module GenresSpec.

(** The tag names that count as genres, as the design document words it:
    lower-cased and trimmed, non-empty and longer than 2 characters. *)
Definition kept_tags (tags : list tag) : list str :=
  filter (fun name => name <> [] /\ 2 < length name)
         (map (fun t => strip (lower (default [] (tag_name t)))) tags).

(** The fallback: the pieces of the semicolon-delimited genre field. *)
Definition genre_field_parts (artist_data : artist) : list str :=
  match artist_genre artist_data with
  | Some (c :: field) => map (fun g => lower (strip g)) (split ";"%char (c :: field))
  | _ => []
  end.

(** Where the genres come from: the tag list, and the genre field only when
    the tag list yields nothing. *)
Definition genre_source (artist_data : artist) : list str :=
  match kept_tags (default [] (artist_tag_list artist_data)) with
  | [] => genre_field_parts artist_data
  | kept => kept
  end.

End GenresSpec.

Import GenresSpec.

Module FingerprintSpec.

(** Two different byte strings with the same digest. *)
Definition digest_collision (x y : list Z) : Prop :=
  x <> y /\ Md5.hexdigest x = Md5.hexdigest y.

End FingerprintSpec.

Import FingerprintSpec.

(** ** The paths of the lyrics resolver *)

Module GeniusSpec.

(** The query [search_song] sends: [f"{song_title} {primary_artist}"]. *)
Definition search_query (t a : str) : str := t ++ py " " ++ _extract_primary_artist a.

(** The world once the request [c] has been made. *)
Definition after_call (w : world) (c : call) : world :=
  {| files := files w; log := log w; calls := calls w ++ [c] |}.

(** A song as [search_song] returns it. *)
Definition song_dict (url title artist : value) : value :=
  VDict [(py "url", url); (py "title", title); (py "artist", artist)].

(** The session handed back a 429 response, or raised [RateLimitError]
    itself. *)
Definition rate_limited (E : env) (q : str) : Prop :=
  (exists body, session E q = Ok (429%Z, body)) \/ session E q = Raise RateLimitError.

(** What a cache hit on the dict [d] returns: nothing for a negative marker,
    else the lyrics stored. *)
Definition entry_outcome (d : list (str * value)) : value :=
  if truthy (default VNone (dict_get d (py "not_found"))) then VNone
  else default VNone (dict_get d (py "lyrics")).

(** [w'] is [w0] after an attempt to store [d] under [k]. *)
Definition cache_written (E : env) (k : str) (d : value) (w0 w' : world) : Prop :=
  calls w' = calls w0
  /\ (write_faults E k = None -> files w' = <[k := Stored d]> (files w0))
  /\ (write_faults E k <> None ->
      files w' = files w0 \/ files w' = <[k := Corrupt]> (files w0)).

(** [agree m m']: whatever the worlds they start from, [m] and [m'] return
    the same value or raise the same exception. *)
Definition agree {A} (m m' : io world A) : Prop :=
  forall w w', (m w).1 = (m' w').1.

(** How the miss path ends once the search has ended, for each way the
    search can end. *)
Inductive miss_end (E : env) (k : str) (w : world) : result value -> world -> Prop :=
  | miss_rate_limit w' :
      files w' = files w ->
      miss_end E k w (Raise RateLimitError) w'
  | miss_stored d w' :
      (write_faults E k = None -> files w' = <[k := Stored (VDict d)]> (files w)) ->
      (write_faults E k <> None ->
       files w' = files w \/ files w' = <[k := Corrupt]> (files w)) ->
      miss_end E k w (Ok (entry_outcome d)) w'.

End GeniusSpec.

Import GeniusSpec.

(** ** The artist resolver as the design document words it *)

Module ResolverSpec.

(** The score of a candidate against the normalized query. *)
Definition candidate_score (primary_artist : str) (c : candidate) : Q :=
  score primary_artist (default [] (candidate_name c)).

(** [c], at place [i] of the list, has the maximum score, and every
    candidate before it scores strictly less: the maximum-scoring candidate,
    ties broken by first-seen order. *)
Definition first_best (primary_artist : str) (cs : list candidate) (i : nat)
    (c : candidate) : Prop :=
  cs !! i = Some c
  /\ (forall j c', cs !! j = Some c' ->
        (candidate_score primary_artist c' <= candidate_score primary_artist c)%Q)
  /\ (forall j c', j < i -> cs !! j = Some c' ->
        (candidate_score primary_artist c' < candidate_score primary_artist c)%Q).

(** The failure [resolve_artist] lets out for a failure inside it: a rate
    limit when the service's error message says so, the generic failure
    otherwise. *)
Definition crossing (e : exn) : exn :=
  match e with
  | ResponseError message =>
      if str_in (py "429") message || str_in (py "rate limit") (lower message)
      then RateLimitError
      else APIError
  | _ => APIError
  end.

(** What the loop has established once it has visited [visited]. *)
Definition chosen (p : str) (visited : list candidate) (st : selection) : Prop :=
  (forall j c, visited !! j = Some c -> (candidate_score p c <= best_score st)%Q)
  /\ ((best_match st = None /\ best_score st = 0%Q)
      \/ (exists i c, best_match st = Some c
                      /\ best_score st = candidate_score p c
                      /\ (0 < candidate_score p c)%Q
                      /\ first_best p visited i c)).

End ResolverSpec.

Import ResolverSpec.

(** ** The scenarios of the design document, as data *)

Module GeniusExamples.

Definition empty_world : world := {| files := ∅; log := []; calls := [] |}.

Definition hello_hit : value :=
  VDict [(py "response",
          VDict [(py "hits",
                  VList [VDict [(py "result",
                                 VDict [(py "url", VStr (py "https://genius.com/hello"));
                                        (py "title", VStr (py "Hello"));
                                        (py "primary_artist",
                                         VDict [(py "name", VStr (py "Adele"))])])]])])].

Definition hello_page : page :=
  {| page_status := 200;
     lyrics_containers := [py "Verse 1" ++ ["010"%char] ++ py "Line 2";
                           py "Chorus" ++ ["010"%char] ++ py "  " ++ ["010"%char]
                             ++ py "Chorus line 2"];
     fallback_containers := [] |}.

(** The search finds the song and the page holds two containers. *)
Definition found_env : env :=
  {| session := fun q => Ok (200%Z, Some hello_hit);
     pages := fun url => Some hello_page;
     write_faults := fun k => None |}.

(** The search has no hit. *)
Definition no_hit_env : env :=
  {| session := fun q => Ok (200%Z, Some (VDict [(py "response", VDict [(py "hits", VList [])])]));
     pages := fun url => None;
     write_faults := fun k => None |}.

(** The endpoint answers 429 to every attempt, behind the session that
    [_create_session] builds. *)
Definition rate_limited_env : env :=
  {| session := _create_session (fun q k => Status 429 None);
     pages := fun url => None;
     write_faults := fun k => None |}.

(** The connection to the search endpoint fails at every attempt. *)
Definition offline_env : env :=
  {| session := _create_session (fun q k => ConnectionFailure);
     pages := fun url => None;
     write_faults := fun k => None |}.

Definition hello_key : str := _get_cache_key (py "Hello") (py "Adele").

Definition hello_lyrics : value :=
  VStr (py "Verse 1" ++ ["010"%char] ++ py "Line 2" ++ ["010"%char] ++ py "Chorus"
          ++ ["010"%char] ++ py "Chorus line 2").

Definition ascii_bytes (s : string) : list Z := encode (py s).

End GeniusExamples.

Import GeniusExamples.

Module ResolverExamples.

Definition linkin_park : candidate :=
  {| candidate_id := Some (py "lp"); candidate_name := Some (py "Linkin Park") |}.
Definition jay_z : candidate :=
  {| candidate_id := Some (py "jz"); candidate_name := Some (py "Jay-Z") |}.
Definition bob : candidate :=
  {| candidate_id := Some (py "b"); candidate_name := Some (py "Bob") |}.

Definition jay_z_data : artist :=
  {| Genres.artist_name := Some (py "JAY-Z");
     artist_tag_list := Some [ {| tag_name := Some (py "Hip Hop"); tag_count := Some 9 |} ];
     artist_genre := None |}.

(** The search returns the two candidates of scenario C. *)
Definition scenario_c : service :=
  {| search_artists := fun name limit => Ok (Some [linkin_park; jay_z]);
     get_artist_by_id := fun id includes => Ok (Some jay_z_data) |}.

(** The search returns one candidate, unrelated to any query about Alice. *)
Definition only_bob : service :=
  {| search_artists := fun name limit => Ok (Some [bob]);
     get_artist_by_id := fun id includes => Ok (Some jay_z_data) |}.

Definition rate_limited_service : service :=
  {| search_artists := fun name limit => Raise (ResponseError (py "HTTP 429"));
     get_artist_by_id := fun id includes => Ok None |}.

Definition failing_service : service :=
  {| search_artists := fun name limit => Raise (ResponseError (py "HTTP 500"));
     get_artist_by_id := fun id includes => Ok None |}.

End ResolverExamples.

Import ResolverExamples.

(** * Part III: proofs *)

(** ** Python strings *)

Module PyStrFacts.

Lemma lower_char_idem c : lower_char (lower_char c) = lower_char c.
Proof. destruct c as [[] [] [] [] [] [] [] []]; reflexivity. Qed.

Lemma lower_idem s : lower (lower s) = lower s.
Proof.
  unfold lower. rewrite map_map. apply map_ext. intros c. apply lower_char_idem.
Qed.

Lemma lower_app s t : lower (s ++ t) = lower s ++ lower t.
Proof. apply map_app. Qed.

Lemma lower_length s : length (lower s) = length s.
Proof. apply length_map. Qed.

Lemma lower_take n s : lower (take n s) = take n (lower s).
Proof. unfold lower. symmetry. apply firstn_map. Qed.

Lemma startswith_spec s p : startswith s p = true <-> exists r, s = p ++ r.
Proof.
  revert s. induction p as [|c p IH]; intros s; simpl.
  - split; [intros _; exists s; reflexivity | reflexivity].
  - destruct s as [|d s].
    + split; [discriminate | intros [r Hr]; discriminate].
    + rewrite andb_true_iff, IH. split.
      * intros [Hc [r ->]]. apply Ascii.eqb_eq in Hc. subst d. exists r. reflexivity.
      * intros [r Hr]. injection Hr as -> ->. split; [apply Ascii.eqb_refl | eauto].
Qed.

Lemma startswith_nil_l p : startswith [] p = true -> p = [].
Proof. destruct p; [reflexivity | discriminate]. Qed.

Lemma startswith_app s r p : startswith s p = true -> startswith (s ++ r) p = true.
Proof.
  rewrite !startswith_spec. intros [q ->]. exists (q ++ r). now rewrite app_assoc.
Qed.

Lemma startswith_length s p : startswith s p = true -> length p <= length s.
Proof.
  rewrite startswith_spec. intros [r ->]. rewrite length_app. lia.
Qed.

(** [sub in s] holds exactly when [s] splits around a copy of [sub]. *)
Lemma str_in_spec sub s : str_in sub s = true <-> exists l r, s = l ++ sub ++ r.
Proof.
  induction s as [|c s IH]; simpl.
  - rewrite orb_false_r. split.
    + intros H. apply startswith_nil_l in H. subst. exists [], []. reflexivity.
    + intros (l & r & H). symmetry in H. apply app_eq_nil in H as [-> H].
      apply app_eq_nil in H as [-> _]. reflexivity.
  - rewrite orb_true_iff, IH, startswith_spec. split.
    + intros [[r Hr] | (l & r & ->)].
      * exists [], r. exact Hr.
      * exists (c :: l), r. reflexivity.
    + intros (l & r & H). destruct l as [|c' l].
      * left. exists r. exact H.
      * right. injection H as -> ->. exists l, r. reflexivity.
Qed.

Lemma str_in_false_spec sub s :
  str_in sub s = false <-> ~ exists l r, s = l ++ sub ++ r.
Proof.
  rewrite <- str_in_spec. destruct (str_in sub s); split; congruence.
Qed.

(** An occurrence inside a part of [s] is an occurrence in [s]. *)
Lemma str_in_infix sub l t r :
  str_in sub t = true -> str_in sub (l ++ t ++ r) = true.
Proof.
  rewrite !str_in_spec. intros (l' & r' & ->).
  exists (l ++ l'), (r' ++ r). now rewrite <- !app_assoc.
Qed.

Lemma str_in_take sub n s : str_in sub (take n s) = true -> str_in sub s = true.
Proof.
  intros H. rewrite <- (take_drop n s).
  apply (str_in_infix sub [] (take n s) (drop n s)) in H. exact H.
Qed.

Lemma str_in_nil_false sub : sub <> [] -> str_in sub [] = false.
Proof. destruct sub; [congruence | reflexivity]. Qed.

(** [find] and [in] agree, and [find] returns the first place. *)
Lemma find_from_in i s sub :
  find_from i s sub = if str_in sub s then (i + find s sub)%Z else (-1)%Z.
Proof.
  unfold find. revert i. induction s as [|c s IH]; intros i; cbn [find_from str_in].
  - destruct (startswith [] sub); cbn [orb]; lia.
  - destruct (startswith (c :: s) sub); cbn [orb]; [lia|].
    rewrite (IH (i + 1)%Z), (IH (0 + 1)%Z). destruct (str_in sub s); lia.
Qed.

Lemma find_not_in s sub : str_in sub s = false -> find s sub = (-1)%Z.
Proof.
  intros H. unfold find. rewrite find_from_in, H. reflexivity.
Qed.

Lemma find_cons c s sub :
  startswith (c :: s) sub = false -> str_in sub s = true ->
  find (c :: s) sub = (1 + find s sub)%Z.
Proof.
  intros E H. unfold find at 1. cbn [find_from]. rewrite E, find_from_in, H. lia.
Qed.

Lemma find_here s sub : startswith s sub = true -> find s sub = 0%Z.
Proof.
  intros E. unfold find. destruct s; cbn [find_from]; rewrite E; reflexivity.
Qed.

Lemma find_range s sub :
  str_in sub s = true -> (0 <= find s sub <= Z.of_nat (length s))%Z.
Proof.
  induction s as [|c s IH]; cbn [str_in]; intros H.
  - rewrite orb_false_r in H. rewrite (find_here _ _ H). simpl. lia.
  - destruct (startswith (c :: s) sub) eqn:E.
    + rewrite (find_here _ _ E). lia.
    + cbn [orb] in H. rewrite (find_cons _ _ _ E H). specialize (IH H).
      cbn [length]. lia.
Qed.

Lemma find_first s sub :
  str_in sub s = true ->
  exists n, find s sub = Z.of_nat n /\
            startswith (drop n s) sub = true /\
            forall m, m < n -> startswith (drop m s) sub = false.
Proof.
  induction s as [|c s IH]; cbn [str_in]; intros H.
  - rewrite orb_false_r in H. exists 0.
    rewrite (find_here _ _ H). repeat split; [exact H | lia].
  - destruct (startswith (c :: s) sub) eqn:E.
    + exists 0. rewrite (find_here _ _ E). repeat split; [exact E | lia].
    + cbn [orb] in H. destruct (IH H) as (n & Hn & Hs & Hm).
      exists (S n). rewrite (find_cons _ _ _ E H), Hn.
      repeat split; [lia | exact Hs |].
      intros [|m] Hlt; [exact E | apply Hm; lia].
Qed.

Lemma slice_to_nonneg s i : (0 <= i)%Z -> slice_to s i = take (Z.to_nat i) s.
Proof. intros H. unfold slice_to. destruct (Z.ltb_spec i 0); [lia | reflexivity]. Qed.

(** *** strip *)

Lemma lstrip_suffix s : exists l, s = l ++ lstrip s /\ forallb isspace l = true.
Proof.
  induction s as [|c s (l & E & Hl)]; simpl.
  - exists []. split; reflexivity.
  - destruct (isspace c) eqn:Hc.
    + exists (c :: l). simpl. rewrite Hc, Hl. split; [f_equal; exact E | reflexivity].
    + exists []. split; reflexivity.
Qed.

Lemma lstrip_head s c t : lstrip s = c :: t -> isspace c = false.
Proof.
  induction s as [|d s IH]; simpl; [discriminate|].
  destruct (isspace d) eqn:Hd; [exact IH|].
  intros [= -> _]. exact Hd.
Qed.

Lemma lstrip_fix c t : isspace c = false -> lstrip (c :: t) = c :: t.
Proof. intros H. simpl. rewrite H. reflexivity. Qed.

Lemma lstrip_idem s : lstrip (lstrip s) = lstrip s.
Proof.
  destruct (lstrip s) as [|c t] eqn:E; [reflexivity|].
  apply lstrip_fix. eapply lstrip_head. exact E.
Qed.

Lemma lstrip_all_space s : forallb isspace s = true -> lstrip s = [].
Proof.
  induction s as [|c s IH]; simpl; [reflexivity|].
  intros H. apply andb_true_iff in H as [-> H]. apply IH, H.
Qed.

Lemma lstrip_snoc_nonspace s c :
  isspace c = false -> exists u, lstrip (s ++ [c]) = u ++ [c].
Proof.
  intros Hc. induction s as [|d s [u IH]]; simpl.
  - rewrite Hc. exists []. reflexivity.
  - destruct (isspace d).
    + exists u. exact IH.
    + exists (d :: s). reflexivity.
Qed.

Lemma rstrip_prefix s : exists r, s = rstrip s ++ r /\ forallb isspace r = true.
Proof.
  unfold rstrip. destruct (lstrip_suffix (rev s)) as (l & E & Hl).
  exists (rev l). split.
  - rewrite <- rev_app_distr, <- E, rev_involutive. reflexivity.
  - rewrite forallb_forall in *. intros x Hx. apply Hl. now apply in_rev.
Qed.

Lemma rstrip_idem s : rstrip (rstrip s) = rstrip s.
Proof. unfold rstrip. rewrite rev_involutive, lstrip_idem. reflexivity. Qed.

Lemma rstrip_nil : rstrip [] = [].
Proof. reflexivity. Qed.

Lemma rstrip_cons_nonspace c t :
  isspace c = false -> exists u, rstrip (c :: t) = c :: u.
Proof.
  intros Hc. unfold rstrip. simpl.
  destruct (lstrip_snoc_nonspace (rev t) c Hc) as [u ->].
  exists (rev u). rewrite rev_app_distr. reflexivity.
Qed.

(** [strip] keeps a middle part of the string. *)
Lemma strip_infix s : exists l r, s = l ++ strip s ++ r.
Proof.
  unfold strip. destruct (lstrip_suffix s) as (l & E & _).
  destruct (rstrip_prefix (lstrip s)) as (r & E' & _).
  exists l, r. rewrite <- E'. exact E.
Qed.

Lemma strip_idem s : strip (strip s) = strip s.
Proof.
  unfold strip. destruct (lstrip s) as [|c t] eqn:E; [reflexivity|].
  pose proof (lstrip_head _ _ _ E) as Hc.
  destruct (rstrip_cons_nonspace c t Hc) as [u Hu].
  rewrite Hu, (lstrip_fix c u Hc), <- Hu. apply rstrip_idem.
Qed.

Lemma strip_all_space s : forallb isspace s = true -> strip s = [].
Proof. intros H. unfold strip. rewrite (lstrip_all_space s H). reflexivity. Qed.

Lemma strip_nil : strip [] = [].
Proof. reflexivity. Qed.

Lemma str_in_strip sub s : str_in sub (strip s) = true -> str_in sub s = true.
Proof.
  intros H. destruct (strip_infix s) as (l & r & E). rewrite E.
  now apply str_in_infix.
Qed.

(** A stripped string that starts without white space: stripping only its
    right end gives the same result. *)
Lemma strip_no_lead s :
  lstrip s = s -> strip s = rstrip s.
Proof. intros H. unfold strip. rewrite H. reflexivity. Qed.

Lemma lower_infix s l t r : s = l ++ t ++ r -> lower s = lower l ++ lower t ++ lower r.
Proof. intros ->. now rewrite !lower_app. Qed.

End PyStrFacts.

(** ** The normalizers *)

Module NormalizerFacts.

Import PyStrFacts.

Lemma ci_starts_lower d s : ci_starts d s = startswith (lower s) (lower d).
Proof.
  revert s. induction d as [|c d IH]; intros [|x s]; simpl; try reflexivity.
  rewrite IH. reflexivity.
Qed.

Lemma ci_occurs_in d s : ci_occurs d s <-> str_in (lower d) (lower s) = true.
Proof.
  rewrite str_in_spec. split.
  - intros (l & m & r & -> & E). exists (lower l), (lower r).
    now rewrite !lower_app, E.
  - intros (l & r & E). unfold lower in E.
    apply map_eq_app in E as (l' & t & -> & <- & E).
    apply map_eq_app in E as (m & r' & -> & E & <-).
    exists l', m, r'. split; [reflexivity | exact E].
Qed.

(** The index arithmetic of the code computes the portion before the first
    occurrence. *)
Lemma before_first_find d s :
  before_first d s =
  if str_in (lower d) (lower s)
  then Some (slice_to s (find (lower s) (lower d)))
  else None.
Proof.
  induction s as [|c s IH]; cbn [before_first str_in lower map].
  - rewrite ci_starts_lower. cbn [lower map].
    destruct (startswith [] (lower d)) eqn:E; cbn [orb]; [|reflexivity].
    rewrite (find_here _ _ E). reflexivity.
  - rewrite ci_starts_lower. cbn [lower map].
    fold (lower s).
    destruct (startswith (lower_char c :: lower s) (lower d)) eqn:E; cbn [orb].
    + rewrite (find_here _ _ E). reflexivity.
    + rewrite IH. destruct (str_in (lower d) (lower s)) eqn:H; [|reflexivity].
      cbn [option_map]. rewrite (find_cons _ _ _ E H).
      pose proof (find_range _ _ H) as R.
      rewrite !slice_to_nonneg by lia.
      replace (Z.to_nat (1 + find (lower s) (lower d)))
        with (S (Z.to_nat (find (lower s) (lower d)))) by lia.
      reflexivity.
Qed.

Lemma cut_at_truncate r d : cut_at r d = truncate r d.
Proof.
  unfold cut_at, truncate. rewrite before_first_find.
  destruct (str_in (lower d) (lower r)); reflexivity.
Qed.

Lemma fold_cut_at table r : fold_left cut_at table r = fold_left truncate table r.
Proof.
  revert r. induction table as [|d table IH]; intros r; simpl; [reflexivity|].
  rewrite cut_at_truncate. apply IH.
Qed.

(** What [before_first] returns is a prefix that ends where an occurrence
    starts, and no occurrence starts earlier. *)
Lemma before_first_some d s p :
  before_first d s = Some p ->
  exists m r, s = p ++ m ++ r /\ lower m = lower d /\
              forall k, k < length p -> ci_starts d (drop k s) = false.
Proof.
  revert p. induction s as [|c s IH]; intros p; cbn [before_first].
  - destruct (ci_starts d []) eqn:E; [|discriminate].
    intros [= <-]. destruct d; [|discriminate].
    exists [], []. split; [reflexivity|]. split; [reflexivity|].
    intros k Hk. simpl in Hk. lia.
  - destruct (ci_starts d (c :: s)) eqn:E.
    + intros [= <-]. rewrite ci_starts_lower, startswith_spec in E.
      destruct E as [r E]. unfold lower in E.
      apply map_eq_app in E as (m & r' & -> & E & _).
      exists m, r'. split; [reflexivity|]. split; [exact E|].
      intros k Hk. simpl in Hk. lia.
    + destruct (before_first d s) as [p'|]; [|discriminate].
      intros [= <-]. destruct (IH p' eq_refl) as (m & r & -> & E' & Hk).
      exists m, r. split; [reflexivity|]. split; [exact E'|].
      intros [|k] Hlt; [exact E|]. apply Hk. simpl in Hlt. lia.
Qed.

Lemma before_first_none d s :
  before_first d s = None <-> ~ ci_occurs d s.
Proof.
  rewrite ci_occurs_in, before_first_find.
  destruct (str_in (lower d) (lower s)); split; try congruence;
    intros H; exfalso; now apply H.
Qed.

Lemma before_first_prefix d s p : before_first d s = Some p -> exists r, s = p ++ r.
Proof.
  intros H. apply before_first_some in H as (m & r & -> & _). eauto.
Qed.

(** After the cut, the delimiter is gone. *)
Lemma before_first_clean d s p :
  d <> [] -> before_first d s = Some p -> str_in (lower d) (lower p) = false.
Proof.
  intros Hd. revert p. induction s as [|c s IH]; intros p; cbn [before_first].
  - destruct (ci_starts d []); [|discriminate]. intros [= <-].
    apply str_in_nil_false. destruct d; [congruence | discriminate].
  - destruct (ci_starts d (c :: s)) eqn:E.
    + intros [= <-]. apply str_in_nil_false. destruct d; [congruence | discriminate].
    + destruct (before_first d s) as [p'|] eqn:B; [|discriminate].
      intros [= <-]. cbn [lower map str_in]. fold (lower p').
      rewrite (IH p' eq_refl), orb_false_r.
      destruct (startswith (lower_char c :: lower p') (lower d)) eqn:S; [|reflexivity].
      apply before_first_prefix in B as [r ->].
      rewrite ci_starts_lower in E. cbn [lower map] in E. fold (lower (p' ++ r)) in E.
      rewrite lower_app in E.
      apply (startswith_app _ (lower r)) in S. simpl in S. congruence.
Qed.

Lemma truncate_prefix s d : exists r, s = truncate s d ++ r.
Proof.
  unfold truncate. destruct (before_first d s) as [p|] eqn:B.
  - eapply before_first_prefix, B.
  - exists []. now rewrite app_nil_r.
Qed.

Lemma truncate_clean s d : d <> [] -> str_in (lower d) (lower (truncate s d)) = false.
Proof.
  intros Hd. unfold truncate. destruct (before_first d s) as [p|] eqn:B.
  - eapply before_first_clean; eauto.
  - rewrite before_first_find in B.
    destruct (str_in (lower d) (lower s)); [discriminate | reflexivity].
Qed.

Lemma truncate_id s d : str_in (lower d) (lower s) = false -> truncate s d = s.
Proof.
  intros H. unfold truncate. rewrite before_first_find, H. reflexivity.
Qed.

Lemma str_in_lower_prefix d p r :
  str_in (lower d) (lower (p ++ r)) = false -> str_in (lower d) (lower p) = false.
Proof.
  intros H. destruct (str_in (lower d) (lower p)) eqn:E; [|reflexivity].
  rewrite lower_app in H.
  apply (str_in_infix _ [] (lower p) (lower r)) in E. simpl in E. congruence.
Qed.

Lemma fold_truncate_prefix table s : exists r, s = fold_left truncate table s ++ r.
Proof.
  revert s. induction table as [|d table IH]; intros s; simpl.
  - exists []. now rewrite app_nil_r.
  - destruct (IH (truncate s d)) as [r E]. destruct (truncate_prefix s d) as [r' E'].
    exists (r ++ r'). rewrite app_assoc, <- E. exact E'.
Qed.

(** After the scan no delimiter of the table is left. *)
Lemma fold_truncate_clean table s d :
  (forall x, In x table -> x <> []) -> In d table ->
  str_in (lower d) (lower (fold_left truncate table s)) = false.
Proof.
  revert s. induction table as [|x table IH]; intros s Hne Hin; [destruct Hin|].
  simpl. destruct Hin as [-> | Hin].
  - destruct (fold_truncate_prefix table (truncate s d)) as [r E].
    eapply str_in_lower_prefix. rewrite <- E. apply truncate_clean.
    apply Hne. now left.
  - apply IH; [|exact Hin]. intros y Hy. apply Hne. now right.
Qed.

Lemma fold_truncate_id table s :
  (forall d, In d table -> str_in (lower d) (lower s) = false) ->
  fold_left truncate table s = s.
Proof.
  revert s. induction table as [|d table IH]; intros s H; simpl; [reflexivity|].
  rewrite truncate_id by (apply H; now left). apply IH.
  intros x Hx. apply H. now right.
Qed.

(** *** The parenthesis step *)

Lemma hd_split_paren s : hd [] (split "("%char s) = before_paren s.
Proof.
  induction s as [|c s IH]; cbn [split before_paren]; [reflexivity|].
  destruct (Ascii.eqb c "("); [reflexivity|].
  destruct (split "(" s) as [|p ps]; cbn [hd] in *; now rewrite <- IH.
Qed.

Lemma str_in_paren s : str_in (py "(") s = existsb (Ascii.eqb "("%char) s.
Proof.
  change (py "(") with ["("%char].
  induction s as [|c s IH]; [reflexivity|].
  cbn [str_in existsb startswith]. rewrite IH, andb_true_r. reflexivity.
Qed.

Lemma before_paren_id s : str_in (py "(") s = false -> before_paren s = s.
Proof.
  rewrite str_in_paren.
  induction s as [|c s IH]; cbn [existsb before_paren]; [reflexivity|].
  rewrite orb_false_iff. intros [Hc Hs]. rewrite Ascii.eqb_sym, Hc, IH; auto.
Qed.

Lemma paren_step s :
  (if str_in (py "(") s then hd [] (split "("%char s) else s) = before_paren s.
Proof.
  destruct (str_in (py "(") s) eqn:E.
  - apply hd_split_paren.
  - symmetry. now apply before_paren_id.
Qed.

Lemma before_paren_prefix s : exists r, s = before_paren s ++ r.
Proof.
  induction s as [|c s [r IH]]; cbn [before_paren].
  - exists []. reflexivity.
  - destruct (Ascii.eqb c "("); [exists (c :: s); reflexivity|].
    exists r. cbn [app]. now f_equal.
Qed.

Lemma before_paren_clean s : str_in (py "(") (before_paren s) = false.
Proof.
  rewrite str_in_paren.
  induction s as [|c s IH]; cbn [before_paren]; [reflexivity|].
  destruct (Ascii.eqb c "(") eqn:E; [reflexivity|].
  cbn [existsb]. now rewrite Ascii.eqb_sym, E, IH.
Qed.

(** *** The two functions of the code against the worded normalizer *)

Lemma parse_artist_string_spec s :
  parse_artist_string s = primaryArtist MULTI_ARTIST_DELIMITERS s.
Proof.
  unfold parse_artist_string, primaryArtist.
  cbv zeta. rewrite paren_step, fold_cut_at. reflexivity.
Qed.

Lemma extract_loop_spec table s : extract_loop table s = first_found table s.
Proof.
  induction table as [|d table IH]; simpl; [reflexivity|].
  rewrite before_first_find.
  destruct (str_in (lower d) (lower s)); [reflexivity | exact IH].
Qed.

Lemma first_found_id table s :
  (forall d, In d table -> str_in (lower d) (lower s) = false) ->
  first_found table s = s.
Proof.
  induction table as [|d table IH]; intros H; simpl; [reflexivity|].
  rewrite before_first_find, (H d) by now left.
  apply IH. intros x Hx. apply H. now right.
Qed.

Lemma MULTI_ARTIST_DELIMITERS_nonempty d : In d MULTI_ARTIST_DELIMITERS -> d <> [].
Proof.
  unfold MULTI_ARTIST_DELIMITERS. simpl.
  intros H. repeat (destruct H as [<- | H]; [discriminate|]). destruct H.
Qed.

Lemma delimiters_nonempty d : In d delimiters -> d <> [].
Proof.
  unfold delimiters. simpl.
  intros H. repeat (destruct H as [<- | H]; [discriminate|]). destruct H.
Qed.

Lemma not_occurs_in d s : ~ ci_occurs d s <-> str_in (lower d) (lower s) = false.
Proof.
  rewrite ci_occurs_in. destruct (str_in (lower d) (lower s)); split; congruence.
Qed.

Lemma lstrip_fixed o :
  lstrip o = o <-> (forall c, head o = Some c -> isspace c = false).
Proof.
  destruct o as [|c t]; [split; [discriminate | reflexivity]|]. split.
  - intros H x [= <-]. eapply lstrip_head, H.
  - intros H. apply lstrip_fix, H. reflexivity.
Qed.

Lemma strip_fixed o : strip o = o <-> no_edge_space o.
Proof.
  unfold no_edge_space. rewrite <- !lstrip_fixed. split.
  - intros H.
    destruct (lstrip_suffix o) as (l & El & _).
    destruct (rstrip_prefix (lstrip o)) as (r & Er & _).
    fold (strip o) in Er. rewrite H in Er.
    assert (L : length o = length l + (length o + length r)).
    { rewrite El at 1. rewrite Er at 1. now rewrite !length_app. }
    assert (l = []) as -> by (destruct l; [reflexivity | cbn in L; lia]).
    assert (r = []) as -> by (destruct r; [reflexivity | cbn in L; lia]).
    cbn [app] in El. split; [now rewrite <- El|].
    unfold strip in H. rewrite <- El in H. unfold rstrip in H.
    rewrite <- (rev_involutive (lstrip (rev o))), H. reflexivity.
  - intros [H1 H2]. unfold strip, rstrip. rewrite H1, H2. apply rev_involutive.
Qed.

Lemma parse_artist_string_normal s :
  normal_form MULTI_ARTIST_DELIMITERS (parse_artist_string s).
Proof.
  rewrite parse_artist_string_spec. unfold primaryArtist.
  set (r := fold_left truncate MULTI_ARTIST_DELIMITERS (strip s)).
  destruct (before_paren_prefix r) as [r1 Hr].
  destruct (strip_infix (before_paren r)) as (l & r2 & Hb).
  repeat split.
  - intros d Hd. apply not_occurs_in.
    pose proof (fold_truncate_clean _ (strip s) d MULTI_ARTIST_DELIMITERS_nonempty Hd) as H.
    fold r in H. rewrite Hr in H. apply str_in_lower_prefix in H.
    destruct (str_in (lower d) (lower (strip (before_paren r)))) eqn:E; [|reflexivity].
    rewrite Hb, !lower_app in H. apply (str_in_infix _ (lower l) _ (lower r2)) in E.
    congruence.
  - destruct (str_in (py "(") (strip (before_paren r))) eqn:E; [|reflexivity].
    apply str_in_strip in E. now rewrite before_paren_clean in E.
  - apply strip_idem.
Qed.

Lemma parse_artist_string_fixed o :
  normal_form MULTI_ARTIST_DELIMITERS o -> parse_artist_string o = o.
Proof.
  intros (Hd & Hp & Hs). rewrite parse_artist_string_spec. unfold primaryArtist.
  rewrite Hs, fold_truncate_id, before_paren_id, Hs; auto.
  intros d Hin. apply not_occurs_in, Hd, Hin.
Qed.

End NormalizerFacts.

Module NormalizerClaims.

Import PyStrFacts NormalizerFacts.





End NormalizerClaims.

(** ** The scorer *)

Module ScorerFacts.

Import PyStrFacts NormalizerFacts.

(** *** The recurrence *)

Lemma lev_nil_r a : lev a [] = length a.
Proof. destruct a; reflexivity. Qed.

Lemma lev_cons x a y b :
  lev (x :: a) (y :: b) =
  Nat.min (Nat.min (lev a (y :: b) + 1) (lev (x :: a) b + 1))
          (lev a b + (if Ascii.eqb x y then 0 else 1)).
Proof. reflexivity. Qed.

Lemma lev_refl a : lev a a = 0.
Proof.
  induction a as [|x a IH]; [reflexivity|].
  rewrite lev_cons, IH, Ascii.eqb_refl. lia.
Qed.

Lemma lev_max a b : lev a b <= Nat.max (length a) (length b).
Proof.
  revert b. induction a as [|x a IH]; intros b; [simpl; lia|].
  destruct b as [|y b]; [rewrite lev_nil_r; lia|].
  rewrite lev_cons. specialize (IH b). cbn [length].
  destruct (Ascii.eqb x y); lia.
Qed.

(** *** Edit sequences reach the recurrence's value *)

Lemma edit_cons c s t : edit s t -> edit (c :: s) (c :: t).
Proof.
  intros []; [apply (edit_insert (c :: l)) | apply (edit_delete (c :: l))
             | apply (edit_substitute (c :: l))].
Qed.

Lemma edits_cons c n s t : edits n s t -> edits n (c :: s) (c :: t).
Proof.
  induction 1 as [|n s t u E _ IH]; [constructor|].
  econstructor; [apply edit_cons, E | exact IH].
Qed.

Lemma edits_app n m s t u : edits n s t -> edits m t u -> edits (n + m) s u.
Proof.
  induction 1 as [|n s t' t E _ IH]; intros H; [exact H|].
  simpl. econstructor; [exact E | apply IH, H].
Qed.

Lemma edits_insertions b : edits (length b) [] b.
Proof.
  induction b as [|y b IH]; [constructor|].
  simpl. econstructor; [apply (edit_insert [] y []) | apply edits_cons, IH].
Qed.

Lemma edits_deletions a : edits (length a) a [].
Proof.
  induction a as [|x a IH]; [constructor|].
  simpl. econstructor; [apply (edit_delete [] x a) | exact IH].
Qed.

Lemma lev_edits a b : edits (lev a b) a b.
Proof.
  revert b. induction a as [|x a IHa]; intros b.
  - apply edits_insertions.
  - induction b as [|y b IHb].
    + rewrite lev_nil_r. apply edits_deletions.
    + rewrite lev_cons.
      destruct (Nat.min_spec (Nat.min (lev a (y :: b) + 1) (lev (x :: a) b + 1))
                  (lev a b + (if Ascii.eqb x y then 0 else 1))) as [[_ ->] | [_ ->]].
      * destruct (Nat.min_spec (lev a (y :: b) + 1) (lev (x :: a) b + 1))
          as [[_ ->] | [_ ->]]; rewrite Nat.add_1_r.
        -- econstructor; [apply (edit_delete [] x a) | apply IHa].
        -- replace (S (lev (x :: a) b)) with (1 + lev (x :: a) b) by lia.
           eapply edits_app.
           ++ econstructor; [apply (edit_insert [] y (x :: a)) | constructor].
           ++ apply edits_cons, IHb.
      * destruct (Ascii.eqb_spec x y) as [-> | Hne].
        -- rewrite Nat.add_0_r. apply edits_cons, IHa.
        -- rewrite Nat.add_1_r.
           econstructor; [apply (edit_substitute [] x y a) | apply edits_cons, IHa].
Qed.

(** *** No edit sequence is shorter *)

Lemma lev_cons_l_le c r u : lev (c :: r) u <= lev r u + 1.
Proof.
  destruct u as [|y u]; [rewrite !lev_nil_r; simpl; lia|].
  rewrite lev_cons. lia.
Qed.

Lemma lev_cons_r_le r y u : lev r (y :: u) <= lev r u + 1.
Proof.
  destruct r as [|x r]; [simpl; lia|].
  rewrite lev_cons. lia.
Qed.

Lemma near_delete c r : near (c :: r) r.
Proof. intros u. apply lev_cons_l_le. Qed.

Lemma near_insert c r : near r (c :: r).
Proof.
  intros u. induction u as [|y u IH].
  - rewrite !lev_nil_r. simpl. lia.
  - rewrite lev_cons.
    pose proof (lev_cons_r_le r y u). destruct (Ascii.eqb c y); lia.
Qed.

Lemma near_substitute c d r : near (c :: r) (d :: r).
Proof.
  intros u. induction u as [|y u IH].
  - rewrite !lev_nil_r. simpl. lia.
  - rewrite !lev_cons.
    destruct (Ascii.eqb c y), (Ascii.eqb d y); lia.
Qed.

Lemma near_cons x s t : near s t -> near (x :: s) (x :: t).
Proof.
  intros H u. induction u as [|y u IH].
  - rewrite !lev_nil_r. specialize (H []). rewrite !lev_nil_r in H. simpl. lia.
  - rewrite !lev_cons.
    pose proof (H (y :: u)). pose proof (H u).
    destruct (Ascii.eqb x y); lia.
Qed.

Lemma near_app l s t : near s t -> near (l ++ s) (l ++ t).
Proof.
  intros H. induction l as [|x l IH]; [exact H|]. simpl. now apply near_cons.
Qed.

Lemma edit_near s t : edit s t -> near s t.
Proof.
  intros []; apply near_app;
    [apply near_insert | apply near_delete | apply near_substitute].
Qed.

Lemma edits_lev n s t : edits n s t -> lev s t <= n.
Proof.
  induction 1 as [s | n s t u E _ IH]; [rewrite lev_refl; lia|].
  pose proof (edit_near s t E u). lia.
Qed.

(** The recurrence computes the minimum number of edits. *)
Lemma lev_is_distance s t : levenshteinDistance s t (lev s t).
Proof. split; [apply lev_edits | intros m; apply edits_lev]. Qed.

Lemma distance_unique s t n : levenshteinDistance s t n -> n = lev s t.
Proof.
  intros [H1 H2]. pose proof (edits_lev _ _ _ H1). pose proof (H2 _ (lev_edits s t)).
  lia.
Qed.

(** *** Symmetry and reversal, through edit sequences *)

Lemma edit_sym s t : edit s t -> edit t s.
Proof. intros []; constructor. Qed.

Lemma edits_snoc n s t u : edits n s t -> edit t u -> edits (S n) s u.
Proof.
  intros H E. replace (S n) with (n + 1) by lia.
  eapply edits_app; [exact H|]. econstructor; [exact E | constructor].
Qed.

Lemma edits_sym n s t : edits n s t -> edits n t s.
Proof.
  induction 1 as [|n s t u E _ IH]; [constructor|].
  eapply edits_snoc; [exact IH | apply edit_sym, E].
Qed.

Lemma edit_rev s t : edit s t -> edit (rev s) (rev t).
Proof.
  intros []; rewrite !rev_app_distr; cbn [rev]; rewrite <- ?app_assoc; cbn [app];
    constructor.
Qed.

Lemma edits_rev n s t : edits n s t -> edits n (rev s) (rev t).
Proof.
  induction 1 as [|n s t u E _ IH]; [constructor|].
  econstructor; [apply edit_rev, E | exact IH].
Qed.

Lemma lev_sym a b : lev a b = lev b a.
Proof.
  apply Nat.le_antisymm; apply edits_lev, edits_sym, lev_edits.
Qed.

Lemma lev_rev a b : lev (rev a) (rev b) = lev a b.
Proof.
  apply Nat.le_antisymm; apply edits_lev.
  - apply edits_rev, lev_edits.
  - pose proof (edits_rev _ _ _ (lev_edits (rev a) (rev b))) as H.
    rewrite !rev_involutive in H. exact H.
Qed.

Lemma lev_nil_l b : lev [] b = length b.
Proof. reflexivity. Qed.

(** The recurrence read from the right end, which is the way the rows of the
    code are filled. *)
Lemma lev_snoc a x b y :
  lev (a ++ [x]) (b ++ [y]) =
  Nat.min (Nat.min (lev a (b ++ [y]) + 1) (lev (a ++ [x]) b + 1))
          (lev a b + (if Ascii.eqb x y then 0 else 1)).
Proof.
  rewrite <- (lev_rev (a ++ [x]) (b ++ [y])), <- (lev_rev a (b ++ [y])),
    <- (lev_rev (a ++ [x]) b), <- (lev_rev a b).
  rewrite !rev_app_distr. cbn [rev app]. apply lev_cons.
Qed.

(** *** The rows of [_levenshtein_distance] *)

Lemma row_upto_lookup a s2 k j :
  j < k -> row_upto a s2 k !! j = Some (lev a (take j s2)).
Proof.
  intros H. unfold row_upto. rewrite list_lookup_fmap, lookup_seq_lt by exact H.
  reflexivity.
Qed.

Lemma row_upto_S a s2 k :
  row_upto a s2 (k + 1) = row_upto a s2 k ++ [lev a (take k s2)].
Proof.
  unfold row_upto. rewrite Nat.add_1_r, seq_S, fmap_app. reflexivity.
Qed.

Lemma row_upto_nil s2 k : k <= length s2 + 1 -> row_upto [] s2 k = seq 0 k.
Proof.
  intros H. unfold row_upto. rewrite <- (list_fmap_id (seq 0 k)) at 2.
  apply list_fmap_ext. intros i j Hj. apply lookup_seq in Hj as [-> Hlt].
  rewrite lev_nil_l, length_take. simpl. lia.
Qed.

Lemma inner_loop_row a c1 s2 todo : forall done,
  s2 = done ++ todo ->
  inner_loop c1 (row_upto a s2 (length s2 + 1)) (length done) todo
    (row_upto (a ++ [c1]) s2 (length done + 1))
  = Some (row_upto (a ++ [c1]) s2 (length s2 + 1)).
Proof.
  induction todo as [|c2 todo IH]; intros done E.
  - rewrite app_nil_r in E. subst s2. reflexivity.
  - cbn [inner_loop].
    assert (L : length s2 = length done + S (length todo))
      by (rewrite E, length_app; reflexivity).
    rewrite !row_upto_lookup by lia. cbn [mbind option_bind].
    assert (T0 : take (length done) s2 = done)
      by (rewrite E; apply take_app_length).
    assert (E' : s2 = (done ++ [c2]) ++ todo)
      by (rewrite E, <- app_assoc; reflexivity).
    assert (T1 : take (length done + 1) s2 = done ++ [c2]).
    { rewrite E' at 1.
      replace (length done + 1) with (length (done ++ [c2]))
        by (rewrite length_app; reflexivity).
      apply take_app_length. }
    rewrite T0, T1, <- lev_snoc, <- T1, <- row_upto_S.
    specialize (IH (done ++ [c2]) E').
    rewrite length_app in IH. cbn [length] in IH. exact IH.
Qed.

Lemma outer_loop_row s2 todo : forall a,
  outer_loop s2 (length a) todo (row_upto a s2 (length s2 + 1))
  = Some (row_upto (a ++ todo) s2 (length s2 + 1)).
Proof.
  induction todo as [|c1 todo IH]; intros a.
  - rewrite app_nil_r. reflexivity.
  - cbn [outer_loop].
    assert (R0 : [length a + 1] = row_upto (a ++ [c1]) s2 (0 + 1)).
    { unfold row_upto. cbn. rewrite take_0, lev_nil_r, length_app. reflexivity. }
    pose proof (inner_loop_row a c1 s2 s2 [] eq_refl) as HI.
    change (length (@nil ascii)) with 0 in HI.
    rewrite R0, HI. cbn [mbind option_bind].
    specialize (IH (a ++ [c1])). rewrite length_app in IH. cbn [length] in IH.
    rewrite IH, <- app_assoc. reflexivity.
Qed.

Lemma row_upto_last a s2 :
  last (row_upto a s2 (length s2 + 1)) = Some (lev a s2).
Proof.
  rewrite row_upto_S, last_snoc, firstn_all. reflexivity.
Qed.

(** The code returns the value of the recurrence, whatever the two strings. *)
Lemma levenshtein_distance_lev s1 s2 : _levenshtein_distance s1 s2 = Some (lev s1 s2).
Proof.
  assert (G : forall a b, length b <= length a ->
     (if length b =? 0 then Some (length a)
      else previous_row ← outer_loop b 0 a (seq 0 (length b + 1)); last previous_row)
     = Some (lev a b)).
  { intros a b _. destruct (Nat.eqb_spec (length b) 0) as [Hb | Hb].
    - destruct b; [|discriminate]. now rewrite lev_nil_r.
    - rewrite <- (row_upto_nil b (length b + 1)) by lia.
      pose proof (outer_loop_row b a []) as HO.
      change (length (@nil ascii)) with 0 in HO.
      rewrite HO. cbn [mbind option_bind app].
      apply row_upto_last. }
  unfold _levenshtein_distance.
  destruct (Nat.ltb_spec (length s1) (length s2)).
  - rewrite (lev_sym s1 s2). apply G. lia.
  - apply G. lia.
Qed.

(** *** The score *)

Lemma ci_substring_lower q c : ci_substring q c = str_in (lower q) (lower c).
Proof.
  induction c as [|x c IH]; cbn [ci_substring str_in lower map];
    rewrite ci_starts_lower; [reflexivity|].
  rewrite IH. reflexivity.
Qed.

Lemma near_match_range d m :
  0 < m -> d <= m ->
  (0 <= (1 - true_div d m) * (5 # 10) <= 1)%Q.
Proof.
  intros Hm Hd. unfold true_div, Qle, Qmult, Qminus, Qplus, Qopp.
  cbn [Qnum Qden].
  assert (P : Z.pos (Pos.of_nat m) = Z.of_nat m).
  { destruct m; [lia|]. rewrite <- Pos.of_nat_succ. lia. }
  rewrite !Pos2Z.inj_mul, P. lia.
Qed.

Lemma score_range query candidate : (0 <= score query candidate <= 1)%Q.
Proof.
  unfold score.
  destruct (str_eqb (lower query) (lower candidate)); [split; discriminate|].
  destruct (ci_starts query candidate); [split; discriminate|].
  destruct (ci_substring query candidate); [split; discriminate|].
  cbv zeta.
  destruct (Qle_bool (8 # 10)
              (similarity query candidate (lev (lower query) (lower candidate))));
    [|split; discriminate].
  unfold similarity.
  destruct (Nat.eqb_spec (Nat.max (length query) (length candidate)) 0) as [E|E];
    [split; discriminate|].
  apply near_match_range; [lia|].
  rewrite <- (lower_length query), <- (lower_length candidate). apply lev_max.
Qed.

Lemma calculate_match_score_score query candidate :
  _calculate_match_score query candidate = Some (score query candidate).
Proof.
  unfold _calculate_match_score, score. cbv zeta.
  destruct (str_eqb (lower query) (lower candidate)) eqn:Eq; [reflexivity|].
  rewrite ci_starts_lower, ci_substring_lower.
  destruct (startswith (lower candidate) (lower query)); [reflexivity|].
  destruct (str_in (lower query) (lower candidate)); [reflexivity|].
  rewrite levenshtein_distance_lev. cbn [mbind option_bind].
  unfold similarity. rewrite !lower_length.
  destruct (Nat.eqb_spec (Nat.max (length query) (length candidate)) 0) as [E|E].
  - exfalso. unfold str_eqb in Eq. apply bool_decide_eq_false in Eq. apply Eq.
    destruct query, candidate; simpl in E; try lia. reflexivity.
  - destruct (Qle_bool _ _); reflexivity.
Qed.

End ScorerFacts.

Module ScorerClaims.

Import ScorerFacts.


End ScorerClaims.

Module ScorerExamples.

Example score_exact :
  _calculate_match_score (py "John Doe") (py "john doe") = Some 1%Q.
Proof. reflexivity. Qed.

Example score_prefix :
  _calculate_match_score (py "John") (py "John Doe") = Some (9 # 10)%Q.
Proof. reflexivity. Qed.

Example score_substring :
  _calculate_match_score (py "Doe") (py "John Doe") = Some (7 # 10)%Q.
Proof. reflexivity. Qed.

Example score_unrelated :
  _calculate_match_score (py "Alice") (py "Bob") = Some 0%Q.
Proof. reflexivity. Qed.

Example score_near :
  _calculate_match_score (py "Jon Doe") (py "John Doe")
  = Some ((1 - (1 # 8)) * (5 # 10))%Q.
Proof. reflexivity. Qed.

Example distance_examples :
  _levenshtein_distance (py "abc") (py "abcd") = Some 1
  /\ _levenshtein_distance (py "abc") (py "xyz") = Some 3
  /\ _levenshtein_distance (py "kitten") (py "sitting") = Some 3.
Proof. repeat split. Qed.

End ScorerExamples.

(** ** The genres *)

Module GenresFacts.

Import PyStrFacts.

Lemma str_leb_refl a : str_leb a a = true.
Proof.
  induction a as [|x a IH]; [reflexivity|].
  cbn [str_leb]. rewrite N.ltb_irrefl, N.eqb_refl. exact IH.
Qed.

Lemma ord_inj x y : ord x = ord y -> x = y.
Proof.
  unfold ord. intros H. rewrite <- (ascii_N_embedding x), <- (ascii_N_embedding y).
  now rewrite H.
Qed.

Global Instance str_le_total : Total str_le.
Proof.
  unfold Total, str_le. intros a. induction a as [|x a IH]; intros b.
  - left. reflexivity.
  - destruct b as [|y b]; [right; reflexivity|]. cbn [str_leb].
    destruct (N.ltb_spec (ord x) (ord y)); [now left|].
    destruct (N.ltb_spec (ord y) (ord x)); [now right|].
    assert (E : ord x = ord y) by lia. rewrite E, N.eqb_refl. apply IH.
Qed.

Global Instance str_le_trans : Transitive str_le.
Proof.
  unfold Transitive, str_le. intros a. induction a as [|x a IH]; intros b c.
  - reflexivity.
  - destruct b as [|y b]; [discriminate|]. destruct c as [|z c]; [intros _; cbn; congruence|].
    cbn [str_leb].
    destruct (N.ltb_spec (ord x) (ord y)), (N.ltb_spec (ord y) (ord z)),
      (N.ltb_spec (ord x) (ord z)); try reflexivity; try lia;
      destruct (N.eqb_spec (ord x) (ord y)), (N.eqb_spec (ord y) (ord z)),
        (N.eqb_spec (ord x) (ord z)); try discriminate; try lia.
    apply IH.
Qed.

Global Instance str_le_antisym : AntiSymm (=) str_le.
Proof.
  unfold AntiSymm, str_le. intros a. induction a as [|x a IH]; intros b.
  - destruct b; [reflexivity | discriminate].
  - destruct b as [|y b]; [discriminate|]. cbn [str_leb].
    destruct (N.ltb_spec (ord x) (ord y)), (N.ltb_spec (ord y) (ord x)); try lia;
      destruct (N.eqb_spec (ord x) (ord y)), (N.eqb_spec (ord y) (ord x));
      try discriminate; try lia.
    intros H1 H2. f_equal; [now apply ord_inj | now apply IH].
Qed.

(** What [sorted(list(set(l)))] returns: the elements of [l], each once, in
    increasing order; and it is the only such list. *)
Lemma sorted_set_elem l g : g ∈ sorted_set l <-> g ∈ l.
Proof.
  unfold sorted_set. rewrite merge_sort_Permutation, elem_of_elements.
  apply elem_of_list_to_set.
Qed.

Lemma sorted_set_NoDup l : NoDup (sorted_set l).
Proof.
  unfold sorted_set. rewrite merge_sort_Permutation. apply NoDup_elements.
Qed.

Lemma sorted_set_sorted l : StronglySorted str_le (sorted_set l).
Proof. unfold sorted_set. apply StronglySorted_merge_sort; apply _. Qed.

Lemma sorted_set_unique l l' :
  StronglySorted str_le l' -> NoDup l' -> (forall g, g ∈ l' <-> g ∈ l) ->
  l' = sorted_set l.
Proof.
  intros S N E. apply (StronglySorted_unique str_le); [exact S | apply sorted_set_sorted |].
  apply NoDup_Permutation; [exact N | apply sorted_set_NoDup |].
  intros g. now rewrite E, sorted_set_elem.
Qed.

(** *** Lower case survives trimming *)

Lemma isspace_lower_char c : isspace (lower_char c) = isspace c.
Proof. destruct c as [[] [] [] [] [] [] [] []]; reflexivity. Qed.

Lemma lstrip_lower s : lstrip (lower s) = lower (lstrip s).
Proof.
  induction s as [|c s IH]; [reflexivity|].
  cbn [lower map lstrip]. rewrite isspace_lower_char.
  destruct (isspace c); [exact IH | reflexivity].
Qed.

Lemma lower_rev s : lower (rev s) = rev (lower s).
Proof. unfold lower. apply map_rev. Qed.

Lemma rstrip_lower s : rstrip (lower s) = lower (rstrip s).
Proof.
  unfold rstrip. now rewrite <- lower_rev, lstrip_lower, lower_rev.
Qed.

Lemma strip_lower s : strip (lower s) = lower (strip s).
Proof. unfold strip. now rewrite lstrip_lower, rstrip_lower. Qed.

Lemma strip_lower_lowercase s : lower (strip (lower s)) = strip (lower s).
Proof. now rewrite strip_lower, lower_idem. Qed.

Lemma lower_strip_lowercase s : lower (lower (strip s)) = lower (strip s).
Proof. apply lower_idem. Qed.

(** *** The loop over the tag list *)

Lemma collect_tags_filter tags genres :
  fold_left collect_tag tags genres = genres ++ kept_tags tags.
Proof.
  revert genres. induction tags as [|t tags IH]; intros genres.
  - unfold kept_tags. simpl. now rewrite app_nil_r.
  - cbn [fold_left]. rewrite IH. unfold kept_tags. cbn [map].
    rewrite filter_cons. unfold collect_tag.
    set (name := strip (lower (default [] (tag_name t)))).
    destruct (decide (name <> [] /\ 2 < length name)) as [[H1 H2] | H].
    + rewrite bool_decide_eq_false_2 by exact H1.
      destruct (Nat.ltb_spec 2 (length name)); [|lia].
      cbn [negb andb]. now rewrite <- app_assoc.
    + destruct (bool_decide (name = [])) eqn:E; cbn [negb andb]; [reflexivity|].
      apply bool_decide_eq_false in E.
      destruct (Nat.ltb_spec 2 (length name)); [|reflexivity].
      exfalso. apply H. split; assumption.
Qed.

Lemma extract_genres_source artist_data :
  _extract_genres_from_tags artist_data = sorted_set (genre_source artist_data).
Proof.
  unfold _extract_genres_from_tags, genre_source. cbv zeta.
  rewrite collect_tags_filter, app_nil_l.
  destruct (kept_tags (default [] (artist_tag_list artist_data))) as [|k ks].
  - rewrite bool_decide_eq_true_2 by reflexivity.
    unfold genre_field_parts.
    destruct (artist_genre artist_data) as [[|c field]|]; reflexivity.
  - rewrite bool_decide_eq_false_2 by discriminate. reflexivity.
Qed.

Lemma kept_tags_lowercase tags g : g ∈ kept_tags tags -> lower g = g.
Proof.
  unfold kept_tags. rewrite list_elem_of_filter, list_elem_of_In, in_map_iff.
  intros [_ (t & <- & _)]. apply strip_lower_lowercase.
Qed.

Lemma genre_field_parts_lowercase a g : g ∈ genre_field_parts a -> lower g = g.
Proof.
  unfold genre_field_parts. destruct (artist_genre a) as [[|c f]|];
    try (intros H; now apply elem_of_nil in H).
  rewrite list_elem_of_In, in_map_iff. intros (t & <- & _). apply lower_idem.
Qed.

Lemma genre_source_lowercase a g : g ∈ genre_source a -> lower g = g.
Proof.
  unfold genre_source.
  destruct (kept_tags (default [] (artist_tag_list a))) as [|k ks] eqn:E.
  - apply genre_field_parts_lowercase.
  - rewrite <- E. apply kept_tags_lowercase.
Qed.

End GenresFacts.

Module GenresClaims.

Import GenresFacts.

(** C8.  For every artist record, the genres returned are those of
    [genre_source]: the tag names that, lower-cased and trimmed, are
    non-empty and longer than 2 characters, and the pieces of the
    semicolon-delimited genre field only when no tag name is kept.  The
    returned list has no duplicates, is in increasing lexicographic order, and
    holds lower-case strings only. *)
Theorem extract_genres_sorted_lowercase (artist_data : artist) :
  (forall g, g ∈ _extract_genres_from_tags artist_data <-> g ∈ genre_source artist_data)
  /\ NoDup (_extract_genres_from_tags artist_data)
  /\ StronglySorted str_le (_extract_genres_from_tags artist_data)
  /\ Forall (fun g => lower g = g) (_extract_genres_from_tags artist_data).
Proof.
  rewrite extract_genres_source.
  split; [intros g; apply sorted_set_elem|].
  split; [apply sorted_set_NoDup|].
  split; [apply sorted_set_sorted|].
  apply Forall_forall. intros g Hg.
  apply (genre_source_lowercase artist_data). apply sorted_set_elem. exact Hg.
Qed.

End GenresClaims.

Module GenresExamples.

Example genres_example :
  _extract_genres_from_tags
    {| artist_name := None;
       artist_tag_list := Some [ {| tag_name := Some (py "Rock"); tag_count := Some 100 |};
                                 {| tag_name := Some (py " pop "); tag_count := None |};
                                 {| tag_name := Some (py "a"); tag_count := Some 5 |};
                                 {| tag_name := Some (py "ROCK"); tag_count := Some 50 |} ];
       artist_genre := Some (py "Jazz;Blues") |}
  = [py "pop"; py "rock"].
Proof. vm_compute. reflexivity. Qed.

Example genres_fallback :
  _extract_genres_from_tags
    {| artist_name := None;
       artist_tag_list := Some [ {| tag_name := Some (py "uk"); tag_count := None |} ];
       artist_genre := Some (py "Jazz; Blues;jazz") |}
  = [py "blues"; py "jazz"].
Proof. vm_compute. reflexivity. Qed.

End GenresExamples.

(** ** The fingerprint *)

Module Md5Examples.

(** The test suite of RFC 1321, appendix A.5. *)
Example md5_rfc1321 :
  Md5.hexdigest (ascii_bytes "") = py "d41d8cd98f00b204e9800998ecf8427e"
  /\ Md5.hexdigest (ascii_bytes "a") = py "0cc175b9c0f1b6a831c399e269772661"
  /\ Md5.hexdigest (ascii_bytes "abc") = py "900150983cd24fb0d6963f7d28e17f72"
  /\ Md5.hexdigest (ascii_bytes "message digest")
     = py "f96b697d7cb7938d525a2f31aaf161d0"
  /\ Md5.hexdigest (ascii_bytes "abcdefghijklmnopqrstuvwxyz")
     = py "c3fcd3d76192e4007dfb496cca67e13b"
  /\ Md5.hexdigest
       (ascii_bytes "ABCDEFGHIJKLMNOPQRSTUVWXYZabcdefghijklmnopqrstuvwxyz0123456789")
     = py "d174ab98d277d9f5a5611c2c9f419d9f"
  /\ Md5.hexdigest
       (ascii_bytes
          "12345678901234567890123456789012345678901234567890123456789012345678901234567890")
     = py "57edf4a22be3c955ac49da2e2107b67a".
Proof. vm_compute. repeat split. Qed.

Example cache_key_hello :
  _get_cache_key (py "Hello") (py "Adele") = py "f841157b566ff110036968ecb544b006"
  /\ _get_cache_key (py "HELLO") (py "adele") = py "f841157b566ff110036968ecb544b006".
Proof. vm_compute. repeat split. Qed.

End Md5Examples.

Module FingerprintFacts.

Import PyStrFacts.

Lemma hexdigest_length msg : length (Md5.hexdigest msg) = 32.
Proof.
  unfold Md5.hexdigest, Md5.md5.
  destruct (fold_left Md5.compress _ _) as [[[a b] c] d]. reflexivity.
Qed.

Lemma ord_lt c : (Z.of_N (ord c) < 256)%Z.
Proof. unfold ord. pose proof (N_ascii_bounded c). lia. Qed.

Lemma ord_Z_inj c d : Z.of_N (ord c) = Z.of_N (ord d) -> c = d.
Proof.
  intros H. apply N2Z.inj in H. unfold ord in H.
  rewrite <- (ascii_N_embedding c), <- (ascii_N_embedding d). now rewrite H.
Qed.

(** UTF-8 is a prefix code. *)
Lemma encode_char_inj c d r r' :
  encode_char c ++ r = encode_char d ++ r' -> c = d /\ r = r'.
Proof.
  unfold encode_char.
  pose proof (ord_lt c). pose proof (ord_lt d).
  pose proof (N2Z.is_nonneg (ord c)). pose proof (N2Z.is_nonneg (ord d)).
  pose proof (Z.div_mod (Z.of_N (ord c)) 64 ltac:(lia)).
  pose proof (Z.div_mod (Z.of_N (ord d)) 64 ltac:(lia)).
  pose proof (Z.mod_pos_bound (Z.of_N (ord c)) 64 ltac:(lia)).
  pose proof (Z.mod_pos_bound (Z.of_N (ord d)) 64 ltac:(lia)).
  assert (0 <= Z.of_N (ord c) / 64 < 4)%Z
    by (split; [apply Z.div_pos | apply Z.div_lt_upper_bound]; lia).
  assert (0 <= Z.of_N (ord d) / 64 < 4)%Z
    by (split; [apply Z.div_pos | apply Z.div_lt_upper_bound]; lia).
  destruct (Z.ltb_spec (Z.of_N (ord c)) 128), (Z.ltb_spec (Z.of_N (ord d)) 128);
    cbn [app]; intros E; inversion E; subst; try lia.
  - split; [now apply ord_Z_inj | reflexivity].
  - split; [apply ord_Z_inj; lia | reflexivity].
Qed.

Lemma encode_inj s t : encode s = encode t -> s = t.
Proof.
  revert t. induction s as [|c s IH]; intros [|d t]; cbn [encode flat_map].
  - reflexivity.
  - unfold encode_char. destruct (_ <? _)%Z; discriminate.
  - unfold encode_char. destruct (_ <? _)%Z; discriminate.
  - intros E. apply encode_char_inj in E as [-> E]. f_equal. apply IH, E.
Qed.

Lemma cache_str_lower a b : cache_str a b = lower a ++ py ":" ++ lower b.
Proof. unfold cache_str. now rewrite !lower_app. Qed.

Lemma lower_char_colon c : lower_char c = ":"%char -> c = ":"%char.
Proof. destruct c as [[] [] [] [] [] [] [] []]; cbv; congruence. Qed.

Lemma lower_no_colon a : ~ In ":"%char a -> ~ In ":"%char (lower a).
Proof.
  intros H Hin. apply H. unfold lower in Hin. apply in_map_iff in Hin as (c & E & Hc).
  apply lower_char_colon in E. now subst.
Qed.

(** A string is cut in one way only at its first colon. *)
Lemma first_colon_unique (l1 l2 r1 r2 : str) :
  ~ In ":"%char l1 -> ~ In ":"%char l2 ->
  l1 ++ ":"%char :: r1 = l2 ++ ":"%char :: r2 -> l1 = l2 /\ r1 = r2.
Proof.
  revert l2. induction l1 as [|x l1 IH]; intros [|y l2] H1 H2 E; cbn [app] in E.
  - injection E as ->. split; reflexivity.
  - injection E as <- _. exfalso. apply H2. now left.
  - injection E as -> _. exfalso. apply H1. now left.
  - injection E as -> E. destruct (IH l2) as [-> ->]; [| |exact E|split; reflexivity].
    + intros Hin. apply H1. now right.
    + intros Hin. apply H2. now right.
Qed.

Lemma cache_str_inj a b c d :
  ~ In ":"%char a -> ~ In ":"%char c ->
  cache_str a b = cache_str c d -> lower a = lower c /\ lower b = lower d.
Proof.
  intros Ha Hc. rewrite !cache_str_lower. change (py ":") with [":"%char].
  cbn [app]. apply first_colon_unique; now apply lower_no_colon.
Qed.

Lemma cache_key_collision a b c d :
  _get_cache_key a b = _get_cache_key c d ->
  cache_str a b = cache_str c d
  \/ digest_collision (encode (cache_str a b)) (encode (cache_str c d)).
Proof.
  intros E. destruct (decide (cache_str a b = cache_str c d)) as [|Hne]; [now left|].
  right. split; [|exact E]. intros H. apply Hne, encode_inj, H.
Qed.

End FingerprintFacts.

Module FingerprintClaims.

Import PyStrFacts FingerprintFacts.




End FingerprintClaims.

(** ** The lyrics resolver *)

Module GeniusFacts.

Import GeniusExamples.

(** *** Running a sequence *)

Lemma bind_ok {A B} (m : io world A) (f : A -> io world B) w a w' :
  m w = (Ok a, w') -> (m ≫= f) w = f a w'.
Proof. intros H. unfold mbind, io_bind. now rewrite H. Qed.

Lemma bind_raise {A B} (m : io world A) (f : A -> io world B) w e w' :
  m w = (Raise e, w') -> (m ≫= f) w = (Raise e, w').
Proof. intros H. unfold mbind, io_bind. now rewrite H. Qed.

(** *** The cache *)

Lemma read_cache_missing k w : files w !! k = None -> _read_cache k w = (Ok VNone, w).
Proof.
  intros H. unfold _read_cache, path_exists, mbind, io_bind.
  rewrite H. reflexivity.
Qed.

Lemma read_cache_corrupt k w :
  files w !! k = Some Corrupt ->
  _read_cache k w =
  (Ok VNone, {| files := files w;
                log := log w ++ [(WARNING, py "Failed to read cache file")];
                calls := calls w |}).
Proof.
  intros H. unfold _read_cache, path_exists, mbind, io_bind.
  rewrite H. cbn. unfold try_except, json_load. rewrite H. reflexivity.
Qed.

Lemma read_cache_stored k w d :
  files w !! k = Some (Stored d) -> _read_cache k w = (Ok d, w).
Proof.
  intros H. unfold _read_cache, path_exists, mbind, io_bind.
  rewrite H. cbn. unfold try_except, json_load. rewrite H. reflexivity.
Qed.

(** A lookup never raises, and leaves the files and the requests alone. *)
Lemma read_cache_returns k w :
  exists v w', _read_cache k w = (Ok v, w')
               /\ files w' = files w /\ calls w' = calls w.
Proof.
  destruct (files w !! k) as [[|d]|] eqn:H.
  - rewrite (read_cache_corrupt _ _ H). eauto.
  - rewrite (read_cache_stored _ _ _ H). eauto.
  - rewrite (read_cache_missing _ _ H). eauto.
Qed.

Lemma write_cache_stores E k d w :
  write_faults E k = None ->
  _write_cache E k d w =
  (Ok tt, {| files := <[k := Stored d]> (files w); log := log w; calls := calls w |}).
Proof. intros H. unfold _write_cache, try_except, json_dump. now rewrite H. Qed.

Lemma write_cache_fault E k d w f :
  write_faults E k = Some f ->
  exists w', _write_cache E k d w = (Ok tt, w')
             /\ log w' = log w ++ [(WARNING, py "Failed to write cache file")]
             /\ calls w' = calls w
             /\ (files w' = files w \/ files w' = <[k := Corrupt]> (files w)).
Proof.
  intros H. unfold _write_cache, try_except, json_dump. rewrite H.
  destruct f; cbn; eauto 10.
Qed.

(** A store never raises, and makes no request. *)
Lemma write_cache_returns E k d w :
  exists w', _write_cache E k d w = (Ok tt, w') /\ calls w' = calls w.
Proof.
  destruct (write_faults E k) as [f|] eqn:H.
  - destruct (write_cache_fault E k d w f H) as (w' & -> & _ & Hc & _). eauto.
  - rewrite (write_cache_stores _ _ _ _ H). eauto.
Qed.

(** *** Computations whose outcome does not depend on the world *)

Lemma agree_ret {A} (a : A) : agree (mret a) (mret a).
Proof. intros w w'. reflexivity. Qed.

Lemma agree_lift {A} (r : result A) : agree (lift r) (lift r).
Proof. intros w w'. reflexivity. Qed.

Lemma agree_raise {A} e : agree (raise (A := A) e) (raise e).
Proof. intros w w'. reflexivity. Qed.

Lemma agree_logger l msg l' msg' : agree (logger l msg) (logger l' msg').
Proof. intros w w'. reflexivity. Qed.

Lemma agree_record_call c c' : agree (record_call c) (record_call c').
Proof. intros w w'. reflexivity. Qed.

Lemma agree_bind {A B} (m m' : io world A) (f f' : A -> io world B) :
  agree m m' -> (forall a, agree (f a) (f' a)) -> agree (m ≫= f) (m' ≫= f').
Proof.
  intros H Hf w w'. unfold mbind, io_bind. specialize (H w w').
  destruct (m w) as [[a|e] w1], (m' w') as [[a'|e'] w1']; cbn in H;
    try discriminate; injection H as ->; [apply Hf | reflexivity].
Qed.

Lemma agree_try {A} (m m' : io world A) (h h' : exn -> io world A) :
  agree m m' -> (forall e, agree (h e) (h' e)) ->
  agree (try_except m h) (try_except m' h').
Proof.
  intros H Hh w w'. unfold try_except. specialize (H w w').
  destruct (m w) as [[a|e] w1], (m' w') as [[a'|e'] w1']; cbn in H;
    try discriminate; injection H as ->; [reflexivity | apply Hh].
Qed.

Lemma agree_write_cache E E' k k' d d' :
  agree (_write_cache E k d) (_write_cache E' k' d').
Proof.
  intros w w'.
  destruct (write_cache_returns E k d w) as (w1 & -> & _).
  destruct (write_cache_returns E' k' d' w') as (w1' & -> & _). reflexivity.
Qed.

Ltac agree_step :=
  first [ apply agree_ret | apply agree_lift | apply agree_raise
        | apply agree_logger | apply agree_record_call | apply agree_write_cache
        | apply agree_bind; [|intros ?] | apply agree_try; [|intros ?] ].

Lemma agree_search_song E E' t a :
  session E = session E' -> agree (search_song E t a) (search_song E' t a).
Proof.
  intros HS. unfold search_song, search_song_body, session_get. rewrite HS.
  cbv zeta. repeat agree_step.
  - destruct a0 as [status_code body].
    destruct (status_code =? 429)%Z; repeat agree_step.
    destruct a4; repeat agree_step.
  - destruct e; repeat agree_step.
Qed.

Lemma agree_fetch_lyrics E E' url :
  pages E = pages E' -> agree (fetch_lyrics E url) (fetch_lyrics E' url).
Proof.
  intros HP. unfold fetch_lyrics, fetch_lyrics_body. rewrite HP.
  repeat agree_step.
  - cbv zeta.
    destruct (match lyrics_containers a0 with [] => _ | _ => _ end);
      repeat agree_step.
    destruct (filter _ _); repeat agree_step.
  - destruct e; repeat agree_step.
Qed.

Lemma agree_get_lyrics_body E E' k t a :
  session E = session E' -> pages E = pages E' ->
  agree (get_lyrics_body E k t a) (get_lyrics_body E' k t a).
Proof.
  intros HS HP. unfold get_lyrics_body.
  apply agree_bind; [now apply agree_search_song|]. intros song_data.
  destruct (negb (truthy song_data));
    repeat first [apply agree_fetch_lyrics; assumption | agree_step].
Qed.

Lemma agree_on_miss E E' k t a :
  session E = session E' -> pages E = pages E' ->
  agree (on_miss E k t a) (on_miss E' k t a).
Proof.
  intros HS HP. unfold on_miss. apply agree_try.
  - now apply agree_get_lyrics_body.
  - intros e. destruct e; repeat agree_step.
Qed.

Lemma get_lyrics_miss E t a w w' :
  _read_cache (_get_cache_key t a) w = (Ok VNone, w') ->
  get_lyrics E t a w = on_miss E (_get_cache_key t a) t a w'.
Proof.
  intros H. unfold get_lyrics. cbv zeta. rewrite (bind_ok _ _ _ _ _ H). reflexivity.
Qed.

(** *** What the search and the fetch can end in *)

Lemma search_song_rate_limit E t a w body :
  session E (search_query t a) = Ok (429%Z, body) ->
  search_song E t a w = (Raise RateLimitError, after_call w (SearchCall (search_query t a))).
Proof.
  intros H. unfold search_song, search_song_body, session_get, try_except,
    mbind, io_bind, record_call, lift.
  cbv zeta. fold (search_query t a). rewrite H. reflexivity.
Qed.

Lemma search_song_transport_error E t a w e :
  session E (search_query t a) = Raise e -> e <> RateLimitError ->
  exists w', search_song E t a w = (Raise LyricsNotFoundError, w')
             /\ files w' = files w
             /\ calls w' = calls w ++ [SearchCall (search_query t a)].
Proof.
  intros H He. unfold search_song, search_song_body, session_get, try_except,
    mbind, io_bind, record_call, lift.
  cbv zeta. fold (search_query t a). rewrite H.
  destruct e; try congruence; cbn; eauto.
Qed.

(** Closes a goal that lists what a computation has ended in. *)
Ltac outcome :=
  cbn; do 2 eexists; repeat (split; [reflexivity|]); eauto.

Lemma value_get_raises v k d e : value_get v k d = Raise e -> e = Error.
Proof. destruct v; cbn; congruence. Qed.

Lemma first_item_raises v e : first_item v = Raise e -> e = Error.
Proof.
  destruct v as [| | | [|c s] | [|x l] | [|[k x] d]]; cbn; congruence.
Qed.

Lemma search_song_no_rate_limit E t a w code body :
  session E (search_query t a) = Ok (code, body) -> code <> 429%Z ->
  exists r w', search_song E t a w = (r, w')
    /\ files w' = files w
    /\ calls w' = calls w ++ [SearchCall (search_query t a)]
    /\ (r = Raise LyricsNotFoundError \/ r = Ok VNone
        \/ exists u ti ar, r = Ok (song_dict u ti ar)).
Proof.
  intros H Hc. unfold search_song, search_song_body, session_get, try_except,
    mbind, io_bind, record_call, lift.
  cbv zeta. fold (search_query t a). rewrite H.
  destruct (Z.eqb_spec code 429) as [|_]; [contradiction|].
  unfold raise_for_status.
  destruct ((400 <=? code)%Z && (code <? 600)%Z); [outcome|].
  destruct body as [data|]; [|outcome].
  destruct (value_get data (py "response") (VDict [])) as [r|e1] eqn:Ge1;
    [|apply value_get_raises in Ge1 as ->; outcome].
  destruct (value_get r (py "hits") (VList [])) as [hits|e2] eqn:Ge2;
    [|apply value_get_raises in Ge2 as ->; outcome].
  destruct (first_item hits) as [[hit|]|e3] eqn:Ge3;
    [| outcome | apply first_item_raises in Ge3 as ->; outcome].
  destruct (value_get hit (py "result") (VDict [])) as [song|e4] eqn:Ge4;
    [|apply value_get_raises in Ge4 as ->; outcome].
  destruct (value_get song (py "url") VNone) as [url|e5] eqn:Ge5;
    [|apply value_get_raises in Ge5 as ->; outcome].
  destruct (value_get song (py "title") VNone) as [ti|e6] eqn:Ge6;
    [|apply value_get_raises in Ge6 as ->; outcome].
  destruct (value_get song (py "primary_artist") (VDict [])) as [pa|e7] eqn:Ge7;
    [|apply value_get_raises in Ge7 as ->; outcome].
  destruct (value_get pa (py "name") VNone) as [ar|e8] eqn:Ge8;
    [|apply value_get_raises in Ge8 as ->; outcome].
  cbn. do 2 eexists. repeat (split; [reflexivity|]).
  right. right. exists url, ti, ar. reflexivity.
Qed.

Lemma fetch_lyrics_outcome E url w :
  exists r w', fetch_lyrics E url w = (r, w')
    /\ files w' = files w
    /\ calls w' = calls w ++ [FetchCall url]
    /\ (r = Raise LyricsNotFoundError \/ exists s, r = Ok (VStr s)).
Proof.
  unfold fetch_lyrics, fetch_lyrics_body, try_except, mbind, io_bind,
    record_call, lift.
  destruct (pages E url) as [p|]; [|outcome].
  unfold raise_for_status.
  destruct ((400 <=? page_status p)%Z && (page_status p <? 600)%Z); [outcome|].
  cbv zeta.
  destruct (match lyrics_containers p with [] => _ | _ => _ end); [outcome|].
  destruct (filter _ _); outcome.
Qed.

(** *** The miss path, case by case *)

Lemma write_cache_written E k d w :
  exists w', _write_cache E k d w = (Ok tt, w') /\ cache_written E k d w w'.
Proof.
  destruct (write_faults E k) as [f|] eqn:H.
  - destruct (write_cache_fault E k d w f H) as (w' & Hw & _ & Hc & Hf).
    exists w'. split; [exact Hw|]. split; [exact Hc|]. split; [congruence | auto].
  - rewrite (write_cache_stores _ _ _ _ H). eexists. split; [reflexivity|].
    split; [reflexivity|]. split; [reflexivity | congruence].
Qed.

Lemma cache_written_frame E k d w0 w1 w' :
  files w1 = files w0 -> calls w' = calls w1 ->
  (exists w2, cache_written E k d w1 w2 /\ files w' = files w2) ->
  (write_faults E k = None -> files w' = <[k := Stored d]> (files w0))
  /\ (write_faults E k <> None ->
      files w' = files w0 \/ files w' = <[k := Corrupt]> (files w0)).
Proof.
  intros Hf Hc (w2 & (_ & H1 & H2) & Hw). rewrite Hw, <- Hf. split; assumption.
Qed.

(** Log, store the negative marker, return nothing: the end of three of the
    paths of [get_lyrics]. *)
Lemma negative_tail E k l msg w :
  exists w', (logger l msg;; _write_cache E k not_found_marker;;
              mret VNone) w = (Ok VNone, w')
             /\ calls w' = calls w
             /\ (write_faults E k = None ->
                 files w' = <[k := Stored not_found_marker]> (files w))
             /\ (write_faults E k <> None ->
                 files w' = files w \/ files w' = <[k := Corrupt]> (files w)).
Proof.
  unfold mbind, io_bind, logger.
  match goal with |- context [_write_cache E k not_found_marker ?w0] =>
    destruct (write_cache_written E k not_found_marker w0) as (w' & -> & Hc & H1 & H2)
  end.
  exists w'. split; [reflexivity|]. split; [exact Hc|]. split; assumption.
Qed.

Lemma song_dict_truthy u ti ar : truthy (song_dict u ti ar) = true.
Proof. reflexivity. Qed.

Lemma song_dict_url u ti ar : subscript (song_dict u ti ar) (py "url") = Ok u.
Proof. reflexivity. Qed.

Lemma song_dict_title u ti ar : subscript (song_dict u ti ar) (py "title") = Ok ti.
Proof. reflexivity. Qed.

Lemma song_dict_artist u ti ar : subscript (song_dict u ti ar) (py "artist") = Ok ar.
Proof. reflexivity. Qed.

Lemma miss_end_negative E k w w' :
  (write_faults E k = None -> files w' = <[k := Stored not_found_marker]> (files w)) ->
  (write_faults E k <> None ->
   files w' = files w \/ files w' = <[k := Corrupt]> (files w)) ->
  miss_end E k w (Ok VNone) w'.
Proof.
  intros H1 H2.
  apply (miss_stored E k w [(py "not_found", VBool true)] w'); assumption.
Qed.

Lemma search_song_reraises E t a w :
  session E (search_query t a) = Raise RateLimitError ->
  search_song E t a w = (Raise RateLimitError, after_call w (SearchCall (search_query t a))).
Proof.
  intros H. unfold search_song, search_song_body, session_get, try_except,
    mbind, io_bind, record_call, lift.
  cbv zeta. fold (search_query t a). rewrite H. reflexivity.
Qed.

Lemma on_miss_end E k t a w :
  exists r w', on_miss E k t a w = (r, w')
    /\ miss_end E k w r w'
    /\ (r = Raise RateLimitError <-> rate_limited E (search_query t a)).
Proof.
  unfold on_miss, try_except, get_lyrics_body, rate_limited.
  assert (N : forall w1, files w1 = files w ->
    forall l msg, exists w',
      (logger l msg;; _write_cache E k not_found_marker;; mret VNone) w1 = (Ok VNone, w')
      /\ miss_end E k w (Ok VNone) w').
  { intros w1 Hf l msg.
    destruct (negative_tail E k l msg w1) as (w' & Ht & _ & H1 & H2).
    exists w'. split; [exact Ht|]. apply miss_end_negative; rewrite <- Hf; assumption. }
  destruct (session E (search_query t a)) as [[code body]|e] eqn:HS.
  - destruct (Z.eq_dec code 429%Z) as [->|Hc].
    + rewrite (bind_raise _ _ _ _ _ (search_song_rate_limit E t a w body HS)).
      do 2 eexists. split; [reflexivity|].
      split; [constructor; reflexivity|]. split; eauto.
    + assert (NR : ~ ((exists b, Ok (code, body) = Ok (429%Z, b))
                      \/ Ok (code, body) = Raise (A := Z * option value) RateLimitError)).
      { intros [[b Hb] | Hb]; congruence. }
      destruct (search_song_no_rate_limit E t a w code body HS Hc)
        as (r & w1 & Hs & Hf & Hcl & Hr).
      destruct Hr as [-> | [-> | (u & ti & ar & ->)]].
      * rewrite (bind_raise _ _ _ _ _ Hs).
        destruct (N w1 Hf WARNING (py "Failed to get lyrics")) as (w' & -> & Hm).
        exists (Ok VNone), w'. split; [reflexivity|]. split; [exact Hm|].
        split; [discriminate | intros H; now destruct NR].
      * rewrite (bind_ok _ _ _ _ _ Hs). cbn [truthy negb].
        destruct (N w1 Hf INFO (py "Song not found on Genius")) as (w' & -> & Hm).
        exists (Ok VNone), w'. split; [reflexivity|]. split; [exact Hm|].
        split; [discriminate | intros H; now destruct NR].
      * rewrite (bind_ok _ _ _ _ _ Hs). rewrite song_dict_truthy. cbn [negb].
        rewrite (bind_ok _ _ w1 u w1) by reflexivity.
        destruct (fetch_lyrics_outcome E u w1) as (r & w2 & Hfl & Hf2 & Hc2 & Hr).
        destruct Hr as [-> | [s ->]].
        -- rewrite (bind_raise _ _ _ _ _ Hfl).
           assert (Hf2' : files w2 = files w) by congruence.
           destruct (N w2 Hf2' WARNING (py "Failed to get lyrics")) as (w' & -> & Hm).
           exists (Ok VNone), w'. split; [reflexivity|]. split; [exact Hm|].
           split; [discriminate | intros H; now destruct NR].
        -- rewrite (bind_ok _ _ _ _ _ Hfl).
           rewrite (bind_ok _ _ w2 u w2) by reflexivity.
           rewrite (bind_ok _ _ w2 ti w2) by reflexivity.
           rewrite (bind_ok _ _ w2 ar w2) by reflexivity.
           match goal with |- context [_write_cache E k ?d] =>
             destruct (write_cache_written E k d w2) as (w3 & Hw & _ & H1 & H2)
           end.
           rewrite (bind_ok _ _ _ _ _ Hw). cbn.
           do 2 eexists. split; [reflexivity|]. split.
           ++ apply (miss_stored E k w
                       [(py "lyrics", VStr s); (py "url", u); (py "title", ti);
                        (py "artist", ar)]); cbn [files];
                rewrite <- Hf, <- Hf2; assumption.
           ++ split; [discriminate | intros H; now destruct NR].
  - destruct (decide (e = RateLimitError)) as [->|He].
    + rewrite (bind_raise _ _ _ _ _ (search_song_reraises E t a w HS)).
      do 2 eexists. split; [reflexivity|].
      split; [constructor; reflexivity|]. split; eauto.
    + destruct (search_song_transport_error E t a w e HS He) as (w1 & Hs & Hf & _).
      rewrite (bind_raise _ _ _ _ _ Hs).
      destruct (N w1 Hf WARNING (py "Failed to get lyrics")) as (w' & -> & Hm).
      exists (Ok VNone), w'. split; [reflexivity|]. split; [exact Hm|].
      split; [discriminate | intros [[b Hb] | Hb]; congruence].
Qed.

Lemma get_lyrics_hit E title artist w d :
  files w !! _get_cache_key title artist = Some (Stored (VDict d)) ->
  exists w', get_lyrics E title artist w = (Ok (entry_outcome d), w')
             /\ calls w' = calls w /\ files w' = files w.
Proof.
  intros H. unfold get_lyrics. cbv zeta.
  rewrite (bind_ok _ _ _ _ _ (read_cache_stored _ _ _ H)).
  unfold entry_outcome, mbind, io_bind, lift, value_get, logger.
  destruct (truthy (default VNone (dict_get d (py "not_found")))); cbn; eauto.
Qed.

Lemma get_lyrics_repeat E title artist w v w1 :
  write_faults E (_get_cache_key title artist) = None ->
  get_lyrics E title artist w = (Ok v, w1) ->
  exists w2, get_lyrics E title artist w1 = (Ok v, w2) /\ calls w2 = calls w1.
Proof.
  intros HW H. set (k := _get_cache_key title artist) in *.
  assert (Hit : exists d, files w1 !! k = Some (Stored (VDict d)) /\ entry_outcome d = v).
  { destruct (files w !! k) as [[|cached]|] eqn:F.
    - rewrite (get_lyrics_miss E _ _ _ _ (read_cache_corrupt _ _ F)) in H.
      destruct (on_miss_end E k title artist
                  {| files := files w;
                     log := log w ++ [(WARNING, py "Failed to read cache file")];
                     calls := calls w |}) as (r & w' & Hm & He & _).
      fold k in H. rewrite Hm in H. injection H as -> ->.
      inversion He as [|d w'' H1 H2]; subst. exists d.
      rewrite (H1 HW). cbn [files]. now rewrite lookup_insert_eq.
    - destruct cached as [| | | | |d];
        try (unfold get_lyrics in H; cbv zeta in H; fold k in H;
             rewrite (bind_ok _ _ _ _ _ (read_cache_stored _ _ _ F)) in H;
             discriminate).
      + rewrite (get_lyrics_miss E _ _ _ _ (read_cache_stored _ _ _ F)) in H.
        destruct (on_miss_end E k title artist w) as (r & w' & Hm & He & _).
        fold k in H. rewrite Hm in H. injection H as -> ->.
        inversion He as [|d w'' H1 H2]; subst. exists d.
        rewrite (H1 HW). now rewrite lookup_insert_eq.
      + destruct (get_lyrics_hit E title artist w d F) as (w' & Hh & _ & Hf).
        rewrite Hh in H. injection H as <- <-. exists d. now rewrite Hf.
    - rewrite (get_lyrics_miss E _ _ _ _ (read_cache_missing _ _ F)) in H.
      destruct (on_miss_end E k title artist w) as (r & w' & Hm & He & _).
      fold k in H. rewrite Hm in H. injection H as -> ->.
      inversion He as [|d w'' H1 H2]; subst. exists d.
      rewrite (H1 HW). now rewrite lookup_insert_eq. }
  destruct Hit as (d & F1 & <-).
  destruct (get_lyrics_hit E title artist w1 d F1) as (w2 & Hh & Hc & _).
  exists w2. split; assumption.
Qed.

Lemma get_lyrics_corrupt_as_missing E title artist w w0 :
  files w !! _get_cache_key title artist = Some Corrupt ->
  files w0 !! _get_cache_key title artist = None ->
  (get_lyrics E title artist w).1 = (get_lyrics E title artist w0).1.
Proof.
  intros F F0.
  rewrite (get_lyrics_miss E _ _ _ _ (read_cache_corrupt _ _ F)).
  rewrite (get_lyrics_miss E _ _ _ _ (read_cache_missing _ _ F0)).
  now apply agree_on_miss.
Qed.

Lemma get_lyrics_write_faults E E' title artist w :
  session E' = session E -> pages E' = pages E ->
  (get_lyrics E' title artist w).1 = (get_lyrics E title artist w).1.
Proof.
  intros HS HP.
  destruct (read_cache_returns (_get_cache_key title artist) w) as (v & w' & HR & _).
  destruct v as [| | | | |].
  1:{ rewrite !(get_lyrics_miss _ _ _ _ _ HR). now apply agree_on_miss. }
  all: unfold get_lyrics; cbv zeta; rewrite !(bind_ok _ _ _ _ _ HR); reflexivity.
Qed.

(** *** A rate limit that lasts *)

Lemma send_exhausted server :
  (forall j, exists body, server j = Status 429 body) ->
  forall n k, send n k server = Raise RequestException.
Proof.
  intros H n. induction n as [|n IH]; intros k; cbn [send];
    destruct (H k) as [body ->];
    (rewrite bool_decide_eq_true_2 by apply list_elem_of_here);
    [reflexivity | apply IH].
Qed.

(** The session that [_create_session] builds never hands back a status of
    the force list: the test [status_code == 429] of [search_song] is never
    true behind it. *)
Lemma send_not_forced server n : forall k code body,
  send n k server = Ok (code, body) -> code ∉ status_forcelist.
Proof.
  induction n as [|n IH]; intros k code body; cbn [send];
    (destruct (server k) as [c b|];
     [destruct (bool_decide (c ∈ status_forcelist)) eqn:D;
      [|intros [= <- <-]; now apply bool_decide_eq_false in D] |]);
    first [discriminate | apply IH].
Qed.

Lemma send_raises server n : forall k e,
  send n k server = Raise e -> e = RequestException.
Proof.
  induction n as [|n IH]; intros k e; cbn [send];
    (destruct (server k) as [c b|];
     [destruct (bool_decide (c ∈ status_forcelist)); [|discriminate] |]);
    first [congruence | apply IH].
Qed.

Lemma on_miss_transport_error E k t a w e :
  session E (search_query t a) = Raise e -> e <> RateLimitError ->
  exists w', on_miss E k t a w = (Ok VNone, w')
    /\ (write_faults E k = None ->
        files w' = <[k := Stored not_found_marker]> (files w)).
Proof.
  intros HS He. unfold on_miss, try_except, get_lyrics_body.
  destruct (search_song_transport_error E t a w e HS He) as (w1 & Hs & Hf & _).
  rewrite (bind_raise _ _ _ _ _ Hs).
  destruct (negative_tail E k WARNING (py "Failed to get lyrics") w1)
    as (w' & -> & _ & H1 & _).
  exists w'. split; [reflexivity|]. rewrite <- Hf. exact H1.
Qed.

(** When [self._session.get] does hand back a response with status 429, as
    under a mocked session, [get_lyrics] raises [RateLimitError] on a miss and
    stores nothing. *)
Lemma get_lyrics_429_response E title artist w body :
  session E (search_query title artist) = Ok (429%Z, body) ->
  files w !! _get_cache_key title artist = None ->
  exists w', get_lyrics E title artist w = (Raise RateLimitError, w')
             /\ files w' = files w.
Proof.
  intros HS F.
  rewrite (get_lyrics_miss E _ _ _ _ (read_cache_missing _ _ F)).
  destruct (on_miss_end E (_get_cache_key title artist) title artist w)
    as (r & w' & Hm & He & Hr).
  assert (r = Raise RateLimitError) as -> by (apply Hr; left; eauto).
  exists w'. split; [exact Hm|]. now inversion He.
Qed.

(** With the session the code builds, no run of [get_lyrics] on a miss
    raises [RateLimitError]. *)
Lemma create_session_never_rate_limit E endpoint title artist w :
  session E = _create_session endpoint ->
  files w !! _get_cache_key title artist = None ->
  exists v w', get_lyrics E title artist w = (Ok v, w').
Proof.
  intros HS F.
  rewrite (get_lyrics_miss E _ _ _ _ (read_cache_missing _ _ F)).
  destruct (on_miss_end E (_get_cache_key title artist) title artist w)
    as (r & w' & Hm & He & Hr).
  rewrite Hm. destruct r as [v|e]; [eauto|]. exfalso.
  assert (e = RateLimitError) as ->.
  { clear Hr Hm. remember (Raise e) as r eqn:Er.
    destruct He; [congruence | discriminate]. }
  destruct (proj1 Hr eq_refl) as [[body Hb] | Hb];
    rewrite HS in Hb; unfold _create_session in Hb.
  - apply send_not_forced in Hb. apply Hb. apply list_elem_of_here.
  - apply send_raises in Hb. discriminate.
Qed.

End GeniusFacts.

Module GeniusClaims.

Import GeniusExamples GeniusFacts.

(** C7.  When the cache holds a record under the fingerprint of the query,
    [get_lyrics] returns what the record says (nothing for a negative marker,
    the stored lyrics otherwise) and makes no search or fetch request.  So a
    query repeated after a run that returned, found or not, and whose record
    could be written, is answered without any further request. *)
Theorem cached_lyrics_short_circuit (E : env) (title artist : str) (w : world) :
  (forall d,
      files w !! _get_cache_key title artist = Some (Stored (VDict d)) ->
      exists w', get_lyrics E title artist w = (Ok (entry_outcome d), w')
                 /\ calls w' = calls w /\ files w' = files w)
  /\ (forall v w1,
        write_faults E (_get_cache_key title artist) = None ->
        get_lyrics E title artist w = (Ok v, w1) ->
        exists w2, get_lyrics E title artist w1 = (Ok v, w2) /\ calls w2 = calls w1).
Proof.
  split.
  - intros d. apply get_lyrics_hit.
  - intros v w1. apply get_lyrics_repeat.
Qed.

(** A negative marker under the fingerprint of ("Hello", "Adele"): the query
    is answered with nothing, and no request is made. *)
Lemma cached_lyrics_witness :
  exists w',
    get_lyrics found_env (py "Hello") (py "Adele")
      {| files := {[hello_key := Stored not_found_marker]}; log := []; calls := [] |}
    = (Ok VNone, w')
    /\ calls w' = [] /\ files w' = {[hello_key := Stored not_found_marker]}.
Proof.
  destruct (proj1 (cached_lyrics_short_circuit found_env (py "Hello") (py "Adele")
                     {| files := {[hello_key := Stored not_found_marker]}; log := [];
                        calls := [] |})
              [(py "not_found", VBool true)] (lookup_singleton_eq _ _))
    as (w' & Hg & Hc & Hf).
  exists w'. split; [exact Hg|]. split; [exact Hc | exact Hf].
Defined.

(** C9.  A lookup never raises: it returns the value stored, and nothing
    when the record is missing or unreadable.  A store never raises: a write
    that fails is logged and dropped.  And neither failure changes what
    [get_lyrics] returns: an unreadable record acts as a missing one, and the
    result is the same whichever writes fail. *)
Theorem cache_failures_swallowed (E : env) (k : str) (data : value) (w : world) :
  (exists v w', _read_cache k w = (Ok v, w')
      /\ (files w !! k = None \/ files w !! k = Some Corrupt -> v = VNone))
  /\ (exists w', _write_cache E k data w = (Ok tt, w')
      /\ (write_faults E k <> None ->
          log w' = log w ++ [(WARNING, py "Failed to write cache file")]))
  /\ (forall title artist w0,
        files w !! _get_cache_key title artist = Some Corrupt ->
        files w0 !! _get_cache_key title artist = None ->
        (get_lyrics E title artist w).1 = (get_lyrics E title artist w0).1)
  /\ (forall E' title artist,
        session E' = session E -> pages E' = pages E ->
        (get_lyrics E' title artist w).1 = (get_lyrics E title artist w).1).
Proof.
  split; [|split; [|split]].
  - destruct (files w !! k) as [[|d]|] eqn:F.
    + rewrite (read_cache_corrupt _ _ F). eauto.
    + rewrite (read_cache_stored _ _ _ F). do 2 eexists. split; [reflexivity|].
      intros [|]; discriminate.
    + rewrite (read_cache_missing _ _ F). eauto.
  - destruct (write_faults E k) as [f|] eqn:F.
    + destruct (write_cache_fault E k data w f F) as (w' & Hw & Hl & _).
      exists w'. split; [exact Hw | intros _; exact Hl].
    + rewrite (write_cache_stores _ _ _ _ F). eexists. split; [reflexivity|].
      congruence.
  - intros title artist w0. apply get_lyrics_corrupt_as_missing.
  - intros E' title artist. apply get_lyrics_write_faults.
Qed.

(** An unreadable record under the fingerprint of ("Hello", "Adele") gives
    the result an empty cache gives. *)
Lemma cache_failures_witness :
  (get_lyrics found_env (py "Hello") (py "Adele")
     {| files := {[hello_key := Corrupt]}; log := []; calls := [] |}).1
  = (get_lyrics found_env (py "Hello") (py "Adele") empty_world).1.
Proof.
  apply (proj1 (proj2 (proj2 (cache_failures_swallowed found_env hello_key VNone
                                {| files := {[hello_key := Corrupt]}; log := [];
                                   calls := [] |})))).
  - unfold hello_key. apply lookup_singleton_eq.
  - apply lookup_empty.
Defined.

(** C3 (what the code does).  Behind the session that [_create_session]
    builds, an endpoint that answers 429 to every attempt makes
    [self._session.get] raise; [search_song] turns that into
    [LyricsNotFoundError], and [get_lyrics] returns nothing and stores the
    negative marker under the fingerprint of the query. *)
Theorem persistent_rate_limit_cached_as_not_found
    (E : env) (endpoint : str -> nat -> attempt) (title artist : str) (w : world) :
  session E = _create_session endpoint ->
  (forall j, exists body, endpoint (search_query title artist) j = Status 429 body) ->
  files w !! _get_cache_key title artist = None ->
  write_faults E (_get_cache_key title artist) = None ->
  exists w', get_lyrics E title artist w = (Ok VNone, w')
             /\ files w' !! _get_cache_key title artist = Some (Stored not_found_marker).
Proof.
  intros HS H429 F HW.
  rewrite (get_lyrics_miss E _ _ _ _ (read_cache_missing _ _ F)).
  assert (HR : session E (search_query title artist) = Raise RequestException).
  { rewrite HS. unfold _create_session. now apply send_exhausted. }
  destruct (on_miss_transport_error E (_get_cache_key title artist) title artist w
              RequestException HR ltac:(discriminate)) as (w' & Hm & Hf).
  exists w'. split; [exact Hm|]. rewrite (Hf HW). apply lookup_insert_eq.
Qed.

(** The failing run: every attempt answered 429, the cache empty. *)
Lemma persistent_rate_limit_witness :
  exists w', get_lyrics rate_limited_env (py "Hello") (py "Adele") empty_world
             = (Ok VNone, w')
             /\ files w' !! hello_key = Some (Stored not_found_marker).
Proof.
  apply (persistent_rate_limit_cached_as_not_found rate_limited_env
           (fun q k => Status 429 None) (py "Hello") (py "Adele") empty_world).
  - reflexivity.
  - intros j. exists None. reflexivity.
  - reflexivity.
  - reflexivity.
Defined.

End GeniusClaims.

(** ** The artist resolver, and what crosses the two boundaries *)

Module ResolverFacts.

Import ScorerFacts ResolverExamples.

Lemma Qgtb_true a b : Qgtb a b = true <-> (b < a)%Q.
Proof.
  unfold Qgtb. rewrite negb_true_iff. split.
  - intros H. apply Qnot_le_lt. intros L. apply Qle_bool_iff in L. congruence.
  - intros H. destruct (Qle_bool a b) eqn:E; [|reflexivity].
    apply Qle_bool_iff in E. exfalso. now apply (Qlt_not_le b a).
Qed.

Lemma Qgtb_false a b : Qgtb a b = false <-> (a <= b)%Q.
Proof.
  unfold Qgtb. rewrite negb_false_iff. apply Qle_bool_iff.
Qed.

Lemma Qltb_true a b : Qltb a b = true <-> (a < b)%Q.
Proof. apply Qgtb_true. Qed.

Lemma select_step_score p st c :
  select_step p st c =
  Ok (if Qgtb (candidate_score p c) (best_score st)
      then {| best_match := Some c; best_score := candidate_score p c;
              last_name := Some (default [] (candidate_name c)) |}
      else {| best_match := best_match st; best_score := best_score st;
              last_name := Some (default [] (candidate_name c)) |}).
Proof.
  unfold select_step, candidate_score. cbv zeta.
  rewrite calculate_match_score_score. cbn [mbind result_bind].
  destruct (Qgtb _ _); reflexivity.
Qed.

Lemma chosen_initial p : chosen p [] initial_selection.
Proof.
  split; [intros j c H; discriminate|]. left. split; reflexivity.
Qed.

Lemma chosen_nonneg p visited st : chosen p visited st -> (0 <= best_score st)%Q.
Proof.
  intros [_ [[_ ->] | (i & c & _ & -> & H & _)]]; [apply Qle_refl|].
  now apply Qlt_le_weak.
Qed.

Lemma chosen_step p visited st c :
  chosen p visited st ->
  exists st', select_step p st c = Ok st' /\ chosen p (visited ++ [c]) st'.
Proof.
  intros Hc. pose proof (chosen_nonneg _ _ _ Hc) as H0.
  destruct Hc as [Hle Hbest]. rewrite select_step_score.
  eexists. split; [reflexivity|].
  destruct (Qgtb (candidate_score p c) (best_score st)) eqn:G.
  - apply Qgtb_true in G. split; cbn [best_score best_match].
    + intros j c' Hj. apply lookup_app_Some in Hj as [Hj | [_ Hj]].
      * apply Qlt_le_weak. eapply Qle_lt_trans; [eapply Hle, Hj | exact G].
      * apply list_lookup_singleton_Some in Hj as [_ <-]. apply Qle_refl.
    + right. exists (length visited), c. split; [reflexivity|].
      split; [reflexivity|]. split; [eapply Qle_lt_trans; eassumption|].
      split; [|split].
      * rewrite lookup_app_r by lia. now rewrite Nat.sub_diag.
      * intros j c' Hj. apply lookup_app_Some in Hj as [Hj | [_ Hj]].
        -- apply Qlt_le_weak. eapply Qle_lt_trans; [eapply Hle, Hj | exact G].
        -- apply list_lookup_singleton_Some in Hj as [_ <-]. apply Qle_refl.
      * intros j c' Hlt Hj. rewrite lookup_app_l in Hj by exact Hlt.
        eapply Qle_lt_trans; [eapply Hle, Hj | exact G].
  - apply Qgtb_false in G. split; cbn [best_score best_match].
    + intros j c' Hj. apply lookup_app_Some in Hj as [Hj | [_ Hj]].
      * eapply Hle, Hj.
      * apply list_lookup_singleton_Some in Hj as [_ <-]. exact G.
    + destruct Hbest as [Hn | (i & b & Hb & Hs & Hp & Hi & Hmax & Hfirst)];
        [left; exact Hn|].
      right. exists i, b. split; [exact Hb|]. split; [exact Hs|].
      split; [exact Hp|]. split; [|split].
      * apply lookup_app_l_Some, Hi.
      * intros j c' Hj. apply lookup_app_Some in Hj as [Hj | [_ Hj]].
        -- eapply Hmax, Hj.
        -- apply list_lookup_singleton_Some in Hj as [_ <-]. now rewrite <- Hs.
      * intros j c' Hlt Hj.
        assert (j < length visited)
          by (apply lookup_lt_Some in Hi; lia).
        rewrite lookup_app_l in Hj by assumption. eapply Hfirst; eassumption.
Qed.

Lemma select_loop_chosen p cs : forall visited st,
  chosen p visited st ->
  exists st', select_loop p st cs = Ok st' /\ chosen p (visited ++ cs) st'.
Proof.
  induction cs as [|c cs IH]; intros visited st Hc.
  - exists st. rewrite app_nil_r. split; [reflexivity | exact Hc].
  - destruct (chosen_step p visited st c Hc) as (st1 & Hs & Hc1).
    destruct (IH _ _ Hc1) as (st' & Hl & Hc').
    exists st'. cbn [select_loop]. rewrite Hs. cbn [mbind result_bind].
    split; [exact Hl|]. now rewrite <- app_assoc in Hc'.
Qed.

Lemma resolve_below_threshold svc name threshold cs sel :
  search_artists svc (parse_artist_string name) 5 = Ok (Some cs) ->
  select_loop (parse_artist_string name) initial_selection cs = Ok sel ->
  (best_score sel < threshold)%Q ->
  resolve_artist svc name threshold = Ok None.
Proof.
  intros HS HL Hlt. unfold resolve_artist, resolve_artist_body. cbv zeta.
  rewrite HS. cbn [mbind result_bind].
  destruct cs as [|c cs]; [reflexivity|].
  rewrite HL. cbn [mbind result_bind].
  apply Qltb_true in Hlt. rewrite Hlt. reflexivity.
Qed.

End ResolverFacts.

Module ResolverClaims.

Import GeniusExamples GeniusFacts ResolverExamples ResolverFacts.




(** Scenario C: the exact match is selected although it comes second. *)
Example scenario_c_selects_jay_z :
  parse_artist_string (py "Jay-Z & Linkin Park") = py "Jay-Z"
  /\ select_loop (py "Jay-Z") initial_selection [linkin_park; jay_z]
     = Ok {| best_match := Some jay_z; best_score := 1;
             last_name := Some (py "Jay-Z") |}
  /\ resolve_artist scenario_c (py "Jay-Z & Linkin Park") (8 # 10)
     = Ok (Some {| musicbrainz_id := py "jz"; canonical_name := py "JAY-Z";
                   genres := [py "hip hop"] |}).
Proof. vm_compute. repeat split. Qed.

Lemma resolve_artist_crossing svc name threshold e :
  resolve_artist_body svc name threshold = Raise e ->
  resolve_artist svc name threshold = Raise (crossing e).
Proof.
  intros H. unfold resolve_artist. rewrite H.
  destruct e; cbn [crossing]; try reflexivity.
  destruct (_ || _); reflexivity.
Qed.

Lemma resolve_artist_search_raises svc name threshold e :
  search_artists svc (parse_artist_string name) 5 = Raise e ->
  resolve_artist svc name threshold = Raise (crossing e).
Proof.
  intros H. apply resolve_artist_crossing.
  unfold resolve_artist_body. cbv zeta. rewrite H. reflexivity.
Qed.

Lemma resolve_artist_no_candidates svc name threshold :
  search_artists svc (parse_artist_string name) 5 = Ok None
  \/ search_artists svc (parse_artist_string name) 5 = Ok (Some []) ->
  resolve_artist svc name threshold = Ok None.
Proof.
  intros [H | H]; unfold resolve_artist, resolve_artist_body; cbv zeta;
    rewrite H; reflexivity.
Qed.

Lemma get_lyrics_propagation E title artist w :
  files w !! _get_cache_key title artist = None ->
  exists r w',
    get_lyrics E title artist w = (r, w')
    /\ (r = Raise RateLimitError <-> rate_limited E (search_query title artist))
    /\ (~ rate_limited E (search_query title artist) -> exists v, r = Ok v)
    /\ (forall e,
          session E (search_query title artist) = Raise e -> e <> RateLimitError ->
          r = Ok VNone
          /\ (write_faults E (_get_cache_key title artist) = None ->
              files w' !! _get_cache_key title artist = Some (Stored not_found_marker))).
Proof.
  intros F. rewrite (get_lyrics_miss E _ _ _ _ (read_cache_missing _ _ F)).
  destruct (on_miss_end E (_get_cache_key title artist) title artist w)
    as (r & w' & Hm & He & Hr).
  exists r, w'. split; [exact Hm|]. split; [exact Hr|]. split.
  - intros Hn. destruct He as [w' _ | d w' _ _]; [|eauto].
    exfalso. apply Hn, Hr. reflexivity.
  - intros e HS Hne.
    destruct (on_miss_transport_error E (_get_cache_key title artist) title artist w
                e HS Hne) as (w1 & Hm1 & Hf).
    rewrite Hm in Hm1. injection Hm1 as -> ->. split; [reflexivity|].
    intros HW. rewrite (Hf HW). apply lookup_insert_eq.
Qed.




End ResolverClaims.
